(** * pytextrank: a shallow embedding of [textrank.py]

    The development models the ranking-and-extraction pipeline of
    [src/textrank.py]: paragraph parsing ([parse_doc], [parse_graf]), the
    co-occurrence graph ([get_tiles], [build_graph]), phrase normalisation
    ([find_chunk], [collect_chunks], [normalize_key_phrases]), sentence
    significance ([rank_kernel], [top_sentences]) and summary assembly
    ([limit_keyphrases], [limit_sentences], [make_sentence]).

    Modelling conventions.
    - A Python [int] is a [Z]; a Python [float] is a real number [R]
      (exact arithmetic: rounding is not modelled).  The one place where the
      binary64 value matters is checked separately on primitive floats.
    - A Python [str] is a [string]; the helpers below follow the Python
      methods on ASCII text.
    - A raised exception is a value of [exn]; a function that may raise
      returns a [result]; a generator returns what it yielded and how it
      ended ([gen]).
    - A [dict] read only through lookups is a [gmap]; the lexeme dictionary,
      whose iteration order is observable, is an insertion-ordered
      association list ([pydict]).
    - The tagger, the tokenizer, the lemmatizer, the SHA-1 digest, the
      noun-phrase chunker and the MinHash sketches are external
      collaborators: section variables. *)

From Stdlib Require Floats.
From Stdlib Require Import Reals Lra Lia ZArith String Ascii List Sorted.
From stdpp Require Import gmap strings list pretty.

Local Open Scope string_scope.
Local Open Scope list_scope.
Local Open Scope Z_scope.

(** ** Python runtime: exceptions, generators, strings, sequences *)

Inductive exn : Set :=
  | KeyError
  | IndexError
  | TypeError
  | ZeroDivisionError
  | StatisticsError
  | UnboundLocalError.

Inductive result (A : Type) : Type :=
  | Ok (a : A)
  | Raise (e : exn).
Arguments Ok {A} a.
Arguments Raise {A} e.

#[global] Instance result_ret : MRet result := @Ok.
#[global] Instance result_bind : MBind result :=
  λ A B f r, match r with Ok a => f a | Raise e => Raise e end.

(** What a generator did when it was run to its end: the items it yielded,
    in order, and the exception that ended it ([None]: it returned). *)
Definition gen (A : Type) : Type := (list A * option exn)%type.

Definition gen_yield {A} (x : A) (g : gen A) : gen A := (x :: g.1, g.2).

#[global] Instance R_eq_dec : EqDecision R := Req_dec_T.
#[global] Instance Rlt_decision (x y : R) : Decision (x < y)%R := Rlt_dec x y.

(** [len(l)] *)
Definition len {A} (l : list A) : Z := Z.of_nat (length l).

(** [range(lo, hi)] *)
Definition py_range (lo hi : Z) : list Z := seqZ lo (hi - lo).

(** [l[i]]: a negative index counts from the end, an index out of range
    raises IndexError. *)
Definition getitem {A} (l : list A) (i : Z) : result A :=
  let k := if decide (i < 0) then i + len l else i in
  if decide (k < 0) then Raise IndexError
  else match l !! Z.to_nat k with
       | Some x => Ok x
       | None => Raise IndexError
       end.

(** [l[lo:hi]] for [0 <= lo]: slicing clips to the list and never raises. *)
Definition slice {A} (l : list A) (lo hi : Z) : list A :=
  take (Z.to_nat (hi - lo)) (drop (Z.to_nat lo) l).

(** [sum(xs)] over floats, accumulated from the left starting at 0. *)
Definition sum (xs : list R) : R := foldl Rplus 0%R xs.

(** [sep.join(l)] *)
Definition join (sep : string) (l : list string) : string := String.concat sep l.

(** [s.split(sep)] for a one-character separator: every occurrence cuts, so
    the result is never empty and may hold empty strings. *)
Fixpoint split (sep : ascii) (s : string) : list string :=
  match s with
  | EmptyString => [EmptyString]
  | String c s' =>
      if Ascii.eqb c sep then EmptyString :: split sep s'
      else match split sep s' with
           | w :: ws => String c w :: ws
           | [] => [String c EmptyString]
           end
  end.

(** [s[0]] *)
Definition first_char (s : string) : result string :=
  match s with
  | EmptyString => Raise IndexError
  | String c _ => Ok (String c EmptyString)
  end.

Definition lower_ascii (c : ascii) : ascii :=
  let n := nat_of_ascii c in
  if (65 <=? n)%nat && (n <=? 90)%nat then ascii_of_nat (n + 32) else c.

(** [s.lower()] *)
Fixpoint lower (s : string) : string :=
  match s with
  | EmptyString => EmptyString
  | String c s' => String (lower_ascii c) (lower s')
  end.

(** The characters [str.strip()] removes, among the ASCII ones. *)
Definition is_whitespace (c : ascii) : bool :=
  let n := nat_of_ascii c in
  ((9 <=? n)%nat && (n <=? 13)%nat) || ((28 <=? n)%nat && (n <=? 32)%nat).

Fixpoint lstrip (s : string) : string :=
  match s with
  | EmptyString => EmptyString
  | String c s' => if is_whitespace c then lstrip s' else s
  end.

Fixpoint rstrip (s : string) : string :=
  match s with
  | EmptyString => EmptyString
  | String c s' =>
      match rstrip s' with
      | EmptyString => if is_whitespace c then EmptyString else String c EmptyString
      | t => String c t
      end
  end.

(** [s.strip()] *)
Definition strip (s : string) : string := rstrip (lstrip s).

(** [s.startswith(p)] *)
Definition startswith (p s : string) : bool := String.prefix p s.

(** ** The lexeme dictionary: a [dict] in insertion order *)

Definition pydict (K V : Type) : Type := list (K * V).

(** [d[k] = v]: an existing key keeps its place, a new key goes last. *)
Fixpoint dict_set {K V} `{EqDecision K} (k : K) (v : V) (d : pydict K V) : pydict K V :=
  match d with
  | [] => [(k, v)]
  | (k', v') :: d' =>
      if decide (k' = k) then (k, v) :: d' else (k', v') :: dict_set k v d'
  end.

Fixpoint dict_get {K V} `{EqDecision K} (k : K) (d : pydict K V) : option V :=
  match d with
  | [] => None
  | (k', v') :: d' => if decide (k' = k) then Some v' else dict_get k d'
  end.

(** [d.values()] *)
Definition values {K V} (d : pydict K V) : list V := snd <$> d.

(** ** Records of the pipeline (the namedtuples of the source) *)

Record WordNode : Type := mkWordNode
  { word_id : Z; raw : string; root : string; pos : string; keep : Z; idx : Z }.

Record ParsedGraf : Type := mkParsedGraf
  { id : string; sha1 : string; graf : list WordNode }.

Module RankedLexeme.
Record t : Type := mk
  { text : string; rank : R; ids : list Z; pos : string }.
End RankedLexeme.
Abbreviation RankedLexeme := RankedLexeme.t.

Module SummarySent.
Record t : Type := mk
  { dist : R; idx : Z; text : string }.
End SummarySent.
Abbreviation SummarySent := SummarySent.t.

(** ** Graph analytics *)

(** [get_tiles]: the word pairs of one sentence.  [keeps[i]] and [keeps[j]]
    are always in range (lemma [tile_slots_in_range] below), so the two
    lookups never miss. *)
Definition get_tiles (graf : list WordNode) (size : Z) : list (string * string) :=
  let keeps := filter (λ w, 0 < word_id w) graf in
  let keeps_len := len keeps in
  i ← py_range 0 (keeps_len - 1);
  w0 ← option_list (keeps !! Z.to_nat i);
  j ← py_range (i + 1) (Z.min keeps_len (i + 1 + size));
  w1 ← option_list (keeps !! Z.to_nat j);
  if decide (idx w1 - idx w0 ≤ size) then [(root w0, root w1)] else [].

(** The slots [(i, j)] of [keeps] at which [get_tiles] yields, in the order
    of its two loops. *)
Definition tile_slots (keeps : list WordNode) (size : Z) : list (Z * Z) :=
  let keeps_len := len keeps in
  i ← py_range 0 (keeps_len - 1);
  w0 ← option_list (keeps !! Z.to_nat i);
  j ← py_range (i + 1) (Z.min keeps_len (i + 1 + size));
  w1 ← option_list (keeps !! Z.to_nat j);
  if decide (idx w1 - idx w0 ≤ size) then [(i, j)] else [].

(** [networkx.DiGraph] as [build_graph] uses it: the node set and the
    ["weight"] attribute of every edge. *)
Record DiGraph : Type := mkDiGraph
  { nodes : gset string; edge : gmap (string * string) R }.

Definition empty_graph : DiGraph := mkDiGraph ∅ ∅.

Definition has_node (g : DiGraph) (n : string) : bool := bool_decide (n ∈ nodes g).

Definition add_node (g : DiGraph) (n : string) : DiGraph :=
  mkDiGraph ({[ n ]} ∪ nodes g) (edge g).

Definition add_edge (g : DiGraph) (u v : string) (weight : R) : DiGraph :=
  mkDiGraph ({[ u; v ]} ∪ nodes g) (<[(u, v) := weight]> (edge g)).

(** The body of [build_graph]'s inner loop for one pair: both words become
    nodes, then the edge's weight is incremented or, when the lookup raises
    KeyError, the edge is created with weight 1.0. *)
Definition add_pair (g : DiGraph) (pair : string * string) : DiGraph :=
  let g1 := foldl (λ g word_id, if has_node g word_id then g else add_node g word_id)
                  g [pair.1; pair.2] in
  match edge g1 !! pair with
  | Some w => mkDiGraph (nodes g1) (<[pair := (w + 1)%R]> (edge g1))
  | None => add_edge g1 pair.1 pair.2 1
  end.

Definition build_graph (json_iter : list ParsedGraf) : DiGraph :=
  foldl (λ g meta, foldl add_pair g (get_tiles (graf meta) 3)) empty_graph json_iter.

(** ** Collecting key phrases *)

(** Python truthiness of [find_chunk_sub]'s result: [None] and the empty
    list are false. *)
Definition truthy {A} (x : option (list A)) : bool :=
  match x with
  | Some (_ :: _) => true
  | _ => false
  end.

Fixpoint find_chunk_sub_loop (phrase : list RankedLexeme) (np : list string) (i : Z)
    (js : list Z) : result (option (list RankedLexeme)) :=
  match js with
  | [] => Ok (Some (slice phrase i (i + len np)))
  | j :: js' =>
      p ← getitem phrase (i + j);
      np_j ← getitem np j;
      if decide (RankedLexeme.text p ≠ np_j) then Ok None
      else find_chunk_sub_loop phrase np i js'
  end.

Definition find_chunk_sub (phrase : list RankedLexeme) (np : list string) (i : Z)
    : result (option (list RankedLexeme)) :=
  find_chunk_sub_loop phrase np i (py_range 0 (len np)).

Fixpoint find_chunk_loop (phrase : list RankedLexeme) (np : list string) (starts : list Z)
    : result (option (list RankedLexeme)) :=
  match starts with
  | [] => Ok None
  | i :: starts' =>
      parsed_np ← find_chunk_sub phrase np i;
      if truthy parsed_np then Ok parsed_np else find_chunk_loop phrase np starts'
  end.

(** [find_chunk] returns the first aligned slice, or [None] by falling off
    the end of its loop. *)
Definition find_chunk (phrase : list RankedLexeme) (np : list string)
    : result (option (list RankedLexeme)) :=
  find_chunk_loop phrase np (py_range 0 (len phrase)).

(** [all([rl.pos[0] != "v" for rl in phrase])]: the list is built in full
    first, so an empty [pos] raises IndexError wherever it stands. *)
Definition all_not_verb (phrase : list RankedLexeme) : result bool :=
  flags ← mapM (λ rl, c ← first_char (RankedLexeme.pos rl); Ok (bool_decide (c ≠ "v"))) phrase;
  Ok (forallb (λ b : bool, b) flags).

(** A [for] loop whose body may raise: the first exception ends it. *)
Fixpoint foldlM {A B} (body : A → B → result A) (a : A) (l : list B) : result A :=
  match l with
  | [] => Ok a
  | x :: l' => a' ← body a x; foldlM body a' l'
  end.

(** [d[k]] on a dictionary known only through its lookups. *)
Definition getkey {V} (d : gmap string V) (k : string) : result V :=
  match d !! k with
  | Some v => Ok v
  | None => Raise KeyError
  end.

(** [x / y] on floats. *)
Definition float_div (x y : R) : result R :=
  if decide (y = 0%R) then Raise ZeroDivisionError else Ok (x / y)%R.

(** [rl._replace(rank=r)] *)
Definition replace_rank (rl : RankedLexeme) (r : R) : RankedLexeme :=
  RankedLexeme.mk (RankedLexeme.text rl) r (RankedLexeme.ids rl) (RankedLexeme.pos rl).

(** The lexeme dictionary [lex].  Its keys are [str(rl.ids)]; the text of a
    list of integers determines the list, so the list itself is the key. *)
Definition lexicon : Type := pydict (list Z) RankedLexeme.

(** [sorted(l, key=lambda rl: rl.rank, reverse=True)]: descending and
    stable (lexemes of equal rank keep their order). *)
Fixpoint insert_desc (x : RankedLexeme) (l : list RankedLexeme) : list RankedLexeme :=
  match l with
  | [] => [x]
  | y :: l' =>
      if decide (RankedLexeme.rank x < RankedLexeme.rank y)%R
      then y :: insert_desc x l' else x :: l
  end.

Definition sorted_by_rank_desc (l : list RankedLexeme) : list RankedLexeme :=
  foldr insert_desc [] l.

(** The body of [for text, p in collect_chunks(phrase)]: iterating over
    [p = None] raises TypeError, and so does [set.union] of no set. *)
Definition add_chunk (max_single_rank : R) (lex : lexicon)
    (chunk : string * option (list RankedLexeme)) : result lexicon :=
  let '(text, p) := chunk in
  match p with
  | None => Raise TypeError
  | Some p =>
      if decide (p = []) then Raise TypeError
      else
        let ids := elements (⋃ ((λ rl, list_to_set (RankedLexeme.ids rl)) <$> p) : gset Z) in
        let rank := (sqrt (sum ((λ rl, RankedLexeme.rank rl ^ 2) <$> p)) / IZR (len p)
                     + max_single_rank)%R in
        Ok (dict_set ids (RankedLexeme.mk text rank ids "np") lex)
  end.

(** [RankedLexeme(text=w.raw.lower(), rank=ranks[w.root], ids=[w.word_id],
    pos=w.pos.lower())], [r] being [ranks[w.root]]. *)
Definition lexeme_of (w : WordNode) (r : R) : RankedLexeme :=
  RankedLexeme.mk (lower (raw w)) r [word_id w] (lower (pos w)).

(** The state of the phrase pass over one sentence.  [s_chunked] is
    bookkeeping, not a variable of the program: the phrases handed to
    [collect_chunks] so far, in order. *)
Record scan : Type := mkScan
  { s_last_idx : Z;
    s_phrase : list RankedLexeme;
    s_lex : lexicon;
    s_chunked : list (list RankedLexeme) }.

Section phrases.
(** [textblob.TextBlob(text).noun_phrases], the external chunker. *)
Variable noun_phrases : string → list string.

(** The loop of [collect_chunks] over the chunker's phrases, with the
    final value of [found]. *)
Fixpoint collect_chunks_loop (phrase : list RankedLexeme) (text : string)
    (nps : list string) : gen (string * option (list RankedLexeme)) * bool :=
  match nps with
  | [] => (([], None), false)
  | np :: nps' =>
      if decide (np ≠ text) then
        match find_chunk phrase (split " " np) with
        | Raise e => (([], Some e), true)
        | Ok chunk =>
            (gen_yield (np, chunk) (collect_chunks_loop phrase text nps').1, true)
        end
      else collect_chunks_loop phrase text nps'
  end.

Definition collect_chunks (phrase : list RankedLexeme)
    : gen (string * option (list RankedLexeme)) :=
  if decide (1 < len phrase) then
    let text := join " " (RankedLexeme.text <$> phrase) in
    let '(g, found) := collect_chunks_loop phrase text (noun_phrases text) in
    match g.2 with
    | Some _ => g
    | None =>
        if negb found then
          match all_not_verb phrase with
          | Ok true => (g.1 ++ [(text, Some phrase)], None)
          | Ok false => g
          | Raise e => (g.1, Some e)
          end
        else g
    end
  else ([], None).

(** The [else] branch of the phrase pass: every chunk the generator
    yields is added to [lex]; an exception of the loop body comes before a
    later exception of the generator. *)
Definition flush (max_single_rank : R) (lex : lexicon) (phrase : list RankedLexeme)
    : result lexicon :=
  let g := collect_chunks phrase in
  lex' ← foldlM (add_chunk max_single_rank) lex g.1;
  match g.2 with
  | Some e => Raise e
  | None => Ok lex'
  end.

(** One turn of [while tail < len(sent)]. *)
Definition phrase_step (ranks : gmap string R) (max_single_rank : R)
    (st : scan) (w : WordNode) : result scan :=
  if bool_decide (0 < word_id w) && bool_decide (root w ∈ dom ranks)
     && bool_decide (idx w - s_last_idx st = 1)
  then
    r ← getkey ranks (root w);
    let rl := lexeme_of w r in
    Ok (mkScan (idx w) (s_phrase st ++ [rl]) (s_lex st) (s_chunked st))
  else
    lex' ← flush max_single_rank (s_lex st) (s_phrase st);
    Ok (mkScan (idx w) [] lex' (s_chunked st ++ [s_phrase st])).

(** The single-word pass, one token. *)
Definition single_step (ranks : gmap string R) (acc : lexicon * R) (w : WordNode)
    : result (lexicon * R) :=
  let '(lex, max_single_rank) := acc in
  is_nv ← (if bool_decide (0 < word_id w) && bool_decide (root w ∈ dom ranks)
           then c ← first_char (pos w); Ok (bool_decide (c = "N" ∨ c = "V"))
           else Ok false);
  if is_nv : bool then
    r ← getkey ranks (root w);
    let rl := lexeme_of w r in
    Ok (dict_set (RankedLexeme.ids rl) rl lex, Rmax max_single_rank (RankedLexeme.rank rl))
  else Ok acc.

(** The phrase pass over one sentence, from its first token. *)
Definition phrase_pass (ranks : gmap string R) (max_single_rank : R) (lex : lexicon)
    (sent : list WordNode) : result scan :=
  w0 ← getitem sent 0;
  foldlM (phrase_step ranks max_single_rank) (mkScan (idx w0 - 1) [] lex []) sent.

(** The body of [for meta in json_iter(path)]. *)
Definition normalize_sentence (ranks : gmap string R) (acc : lexicon * R)
    (meta : ParsedGraf) : result (lexicon * R) :=
  let sent := graf meta in
  '(lex, max_single_rank) ← foldlM (single_step ranks) acc sent;
  st ← phrase_pass ranks max_single_rank lex sent;
  Ok (s_lex st, max_single_rank).

(** The first half of [normalize_key_phrases]: [lex] and
    [max_single_rank] after the loop over the corpus. *)
Definition collect_lexemes (json_iter : list ParsedGraf) (ranks : gmap string R)
    : result (lexicon * R) :=
  foldlM (normalize_sentence ranks) ([], 0%R) json_iter.

(** [normalize_key_phrases].  Every exception is raised before the first
    item is yielded (the divisor is the same for every item), so the
    generator either yields the whole list or raises. *)
Definition normalize_key_phrases (json_iter : list ParsedGraf) (ranks : gmap string R)
    : result (list RankedLexeme) :=
  '(lex, _) ← collect_lexemes json_iter ranks;
  let sum_ranks := sum (RankedLexeme.rank <$> values lex) in
  mapM (λ rl, r ← float_div (RankedLexeme.rank rl) sum_ranks; Ok (replace_rank rl r))
       (sorted_by_rank_desc (values lex)).
End phrases.

(** ** Sentence significance *)

(** [sorted(l, key=key, reverse=True)] for a float key: descending and
    stable. *)
Fixpoint insert_desc_by {A} (key : A → R) (x : A) (l : list A) : list A :=
  match l with
  | [] => [x]
  | y :: l' => if decide (key x < key y)%R then y :: insert_desc_by key x l' else x :: l
  end.

Definition sorted_desc_by {A} (key : A → R) (l : list A) : list A :=
  foldr (insert_desc_by key) [] l.

Section similarity.
(** A [datasketch.MinHash] object. *)
Variable MinHash : Type.
(** [mh_digest(data)] with the default [num_perm=512]. *)
Variable mh_digest : list string → MinHash.
(** [m1.jaccard(m2)] *)
Variable jaccard : MinHash → MinHash → R.

Definition rank_kernel (json_iter : list RankedLexeme) : list (RankedLexeme * MinHash) :=
  (λ rl, (rl, mh_digest (pretty <$> RankedLexeme.ids rl))) <$> json_iter.

(** The text under which [top_sentences] files a sentence. *)
Definition sentence_text (meta : ParsedGraf) : string :=
  join " " (raw <$> graf meta).

(** [dist] of one sentence in [top_sentences]. *)
Definition sentence_dist (kernel : list (RankedLexeme * MinHash)) (meta : ParsedGraf) : R :=
  let m_sent := mh_digest ((λ w, pretty (word_id w)) <$> graf meta) in
  sum ((λ '(rl, m), jaccard m_sent m * RankedLexeme.rank rl)%R <$> kernel).

(** [key_sent] and [i] after the first loop of [top_sentences]. *)
Definition key_sentences (kernel : list (RankedLexeme * MinHash)) (json_iter : list ParsedGraf)
    : pydict string (R * Z) * Z :=
  foldl (λ '(key_sent, i) meta,
           (dict_set (sentence_text meta) (sentence_dist kernel meta, i) key_sent, i + 1))
        ([], 0) json_iter.

Definition top_sentences (kernel : list (RankedLexeme * MinHash)) (json_iter : list ParsedGraf)
    : list SummarySent :=
  (λ '(text, (dist, i)), SummarySent.mk dist i text)
    <$> sorted_desc_by (λ x, x.2.1) (key_sentences kernel json_iter).1.
End similarity.

(** ** Document summarization *)

(** [statistics.mean(xs)] *)
Definition mean (xs : list R) : result R :=
  if decide (xs = []) then Raise StatisticsError else Ok (sum xs / IZR (len xs))%R.

(** The loop [for rl in lex] of [limit_keyphrases]. *)
Fixpoint limit_keyphrases_loop (phrase_limit : Z) (rank_thresh : R) (used : Z)
    (lex : list RankedLexeme) : gen string :=
  match lex with
  | [] => ([], None)
  | rl :: lex' =>
      match first_char (RankedLexeme.pos rl) with
      | Raise e => ([], Some e)
      | Ok c =>
          if decide (c ≠ "v") then
            if bool_decide (phrase_limit < used)
               || bool_decide (RankedLexeme.rank rl < rank_thresh)%R
            then ([], None)
            else gen_yield (RankedLexeme.text rl)
                   (limit_keyphrases_loop phrase_limit rank_thresh (used + 1) lex')
          else limit_keyphrases_loop phrase_limit rank_thresh used lex'
      end
  end.

Definition limit_keyphrases (json_iter : list RankedLexeme) (phrase_limit : Z) : gen string :=
  match mean (RankedLexeme.rank <$> json_iter) with
  | Raise e => ([], Some e)
  | Ok rank_thresh => limit_keyphrases_loop phrase_limit rank_thresh 0 json_iter
  end.

(** The loop of [limit_sentences], from a given [word_count]. *)
Fixpoint limit_sentences_loop (word_limit word_count : Z) (json_iter : list SummarySent)
    : list (list string * Z) :=
  match json_iter with
  | [] => []
  | p :: rest =>
      let sent_text := split " " (SummarySent.text p) in
      let sent_len := len sent_text in
      if decide (word_limit < word_count + sent_len) then []
      else (sent_text, SummarySent.idx p)
             :: limit_sentences_loop word_limit (word_count + sent_len) rest
  end.

Definition limit_sentences (json_iter : list SummarySent) (word_limit : Z)
    : list (list string * Z) :=
  limit_sentences_loop word_limit 0 json_iter.

(** [x in s] on strings: [x] occurs in [s] as a substring. *)
Fixpoint in_str (x s : string) : bool :=
  String.prefix x s
  || match s with
     | EmptyString => false
     | String _ s' => in_str x s'
     end.

(** The characters before which [make_sentence] puts no space: the string
    of the source, comma to apostrophe, with the double quote as its code. *)
Definition NO_SPACE_BEFORE : string :=
  ",.:;!?-" +:+ String (ascii_of_nat 34) "'".

(** The loop of [make_sentence]; [word[0]] raises IndexError on an empty
    word, and is only evaluated when [idx > 0]. *)
Fixpoint make_sentence_loop (lex : list string) (idx : Z) (sent_text : list string)
    : result (list string) :=
  match sent_text with
  | [] => Ok lex
  | word :: rest =>
      space ← (if bool_decide (0 < idx)
               then c ← first_char word; Ok (negb (in_str c NO_SPACE_BEFORE))
               else Ok false);
      let lex := if space : bool then lex ++ [" "] else lex in
      make_sentence_loop (lex ++ [word]) (idx + 1) rest
  end.

Definition make_sentence (sent_text : list string) : result string :=
  lex ← make_sentence_loop [] 0 sent_text;
  Ok (join "" lex).

(** ** Parsing *)

(** A loop over [l] whose body works on a state that outlives an exception
    (module globals, items already yielded): the state reached and the
    exception that ended the loop, if any. *)
Fixpoint loop {A B} (body : A → B → A * option exn) (a : A) (l : list B) : A * option exn :=
  match l with
  | [] => (a, None)
  | x :: l' =>
      match body a x with
      | (a', None) => loop body a' l'
      | (a', Some e) => (a', Some e)
      end
  end.

Definition newline : ascii := ascii_of_nat 10.

(** [split_grafs], with the paragraph under construction as accumulator. *)
Fixpoint split_grafs_loop (graf : list string) (lines : list string) : list string :=
  match lines with
  | [] => if decide (0 < len graf) then [join (String newline EmptyString) graf] else []
  | line :: rest =>
      let line := strip line in
      if decide (Z.of_nat (String.length line) < 1) then
        if decide (0 < len graf)
        then join (String newline EmptyString) graf :: split_grafs_loop [] rest
        else split_grafs_loop graf rest
      else split_grafs_loop (graf ++ [line]) rest
  end.

Definition split_grafs (lines : list string) : list string := split_grafs_loop [] lines.

(** [filter_quotes(text, is_email=False)] *)
Definition filter_quotes (text : string) : list string :=
  split_grafs ((λ line, if startswith ">" line then "" else line) <$> split newline text).

(** [\w] on ASCII text: letters, digits and the underscore. *)
Definition is_word_char (c : ascii) : bool :=
  let n := nat_of_ascii c in
  ((48 <=? n)%nat && (n <=? 57)%nat) || ((65 <=? n)%nat && (n <=? 90)%nat)
  || ((97 <=? n)%nat && (n <=? 122)%nat) || (n =? 95)%nat.

Fixpoint all_chars (f : ascii → bool) (s : string) : bool :=
  match s with
  | EmptyString => true
  | String c s' => f c && all_chars f s'
  end.

(** [PAT_PUNCT.match(word)], the pattern being [^\W+$]. *)
Definition PAT_PUNCT (word : string) : bool :=
  bool_decide (word ≠ "") && all_chars (λ c, negb (is_word_char c)) word.

(** [PAT_SPACE.match(word)], the pattern being [\_+$]: underscores up to the
    end of the string or up to its final newline. *)
Fixpoint PAT_SPACE (word : string) : bool :=
  match word with
  | String c rest =>
      (c =? "_")%char
      && (bool_decide (rest = "") || bool_decide (rest = String newline EmptyString)
          || PAT_SPACE rest)
  | EmptyString => false
  end.

Definition is_not_word (word : string) : bool := PAT_PUNCT word || PAT_SPACE word.

Definition POS_KEEPS : list string := ["v"; "n"; "j"].
Definition POS_LEMMA : list string := ["v"; "n"].

(** [UNIQ_WORDS] when the module is loaded. *)
Definition UNIQ_WORDS_init : gmap string Z := {[ "." := 0 ]}.

(** [get_word_id]: the identifier and the registry afterwards. *)
Definition get_word_id (root : string) (UNIQ_WORDS : gmap string Z) : Z * gmap string Z :=
  match UNIQ_WORDS !! root with
  | Some i => (i, UNIQ_WORDS)
  | None => (Z.of_nat (size UNIQ_WORDS), <[root := Z.of_nat (size UNIQ_WORDS)]> UNIQ_WORDS)
  end.

(** A textblob sentence: [str(sent)] and [sent.words]. *)
Record Sentence : Type := mkSentence
  { sent_str : string; words : list string }.

(** The variables of [parse_graf] that outlive a turn of its loops, and the
    registry.  [parsed_raw] and [pos_family] are unbound ([None]) until a
    branch assigns them, and keep their last value afterwards. *)
Record parse_state : Type := mkParseState
  { parsed_raw : option string;
    pos_family : option string;
    raw_idx : Z;
    new_base_idx : Z;
    cur_graf : list WordNode;
    digest : list string;
    markup : list ParsedGraf;
    uniq_words : gmap string Z }.

(** An input record of [parse_doc]: a JSON object that may lack a key. *)
Record Doc : Type := mkDoc
  { doc_id : option string; doc_text : option string }.

Section parsing.
(** [textblob.TextBlob(graf_text).sentences] *)
Variable sentences : string → list Sentence.
(** [TAGGER.tag] *)
Variable tag : string → list (string * string).
(** [word.singularize().lemmatize(pos_family)] *)
Variable lemmatize : string → string → string.
(** The SHA-1 hex digest of the roots fed to [digest.update], in order. *)
Variable hexdigest : list string → string.

(** One turn of [while tag_idx < len(tagged_sent)]. *)
Definition parse_word (sent : Sentence) (st : parse_state) (pos_tag : string * string)
    : result parse_state :=
  let word := mkWordNode 0 pos_tag.1 pos_tag.1 pos_tag.2 0 (new_base_idx st) in
  '(word, parsed_raw, pos_family, raw_idx) ←
    (if is_not_word pos_tag.1 || bool_decide (pos_tag.2 = "SYM") then
       Ok (mkWordNode (word_id word) (raw word) (root word) "." (keep word) (idx word),
           Some pos_tag.1, Some ".", raw_idx st)
     else if bool_decide (raw_idx st < len (words sent)) then
       w ← getitem (words sent) (raw_idx st);
       c ← first_char (lower pos_tag.2);
       Ok (word, Some w, Some c, raw_idx st + 1)
     else Ok (word, parsed_raw st, pos_family st, raw_idx st));
  match parsed_raw, pos_family with
  | Some parsed_raw, Some pos_family =>
      let root :=
        if bool_decide (pos_family ∈ POS_LEMMA) then lower (lemmatize parsed_raw pos_family)
        else if bool_decide (pos_family ≠ ".") then lower parsed_raw
        else parsed_raw in
      let '(word_id, keep, uniq) :=
        if bool_decide (pos_family ∈ POS_KEEPS)
        then let '(i, u) := get_word_id root (uniq_words st) in (i, 1, u)
        else (word_id word, keep word, uniq_words st) in
      Ok (mkParseState (Some parsed_raw) (Some pos_family) raw_idx (new_base_idx st + 1)
            (cur_graf st ++ [mkWordNode word_id parsed_raw root (pos word) keep (idx word)])
            (digest st ++ [root]) (markup st) uniq)
  | _, _ => Raise UnboundLocalError
  end.

(** The body of [for sent in ...sentences]. *)
Definition parse_sentence (doc_id : string) (st : parse_state) (sent : Sentence)
    : parse_state * option exn :=
  let st0 := mkParseState (parsed_raw st) (pos_family st) 0 (new_base_idx st) [] []
               (markup st) (uniq_words st) in
  let '(st1, err) :=
    loop (λ st pos_tag, match parse_word sent st pos_tag with
                        | Ok st' => (st', None)
                        | Raise e => (st, Some e)
                        end) st0 (tag (sent_str sent)) in
  match err with
  | Some e => (st1, Some e)
  | None =>
      (mkParseState (parsed_raw st1) (pos_family st1) (raw_idx st1) (new_base_idx st1)
         (cur_graf st1) (digest st1)
         (markup st1 ++ [mkParsedGraf doc_id (hexdigest (digest st1)) (cur_graf st1)])
         (uniq_words st1), None)
  end.

(** [parse_graf]: what it returns or raises, and the registry it leaves. *)
Definition parse_graf (doc_id graf_text : string) (base_idx : Z) (UNIQ_WORDS : gmap string Z)
    : result (list ParsedGraf * Z) * gmap string Z :=
  let st0 := mkParseState None None 0 base_idx [] [] [] UNIQ_WORDS in
  let '(st, err) := loop (parse_sentence doc_id) st0 (sentences graf_text) in
  (match err with
   | Some e => Raise e
   | None => Ok (markup st, new_base_idx st)
   end, uniq_words st).

(** The body of [for graf_text in filter_quotes(...)], on the sentences
    yielded so far, [base_idx] and the registry. *)
Definition parse_doc_graf (meta : Doc) (st : list ParsedGraf * Z * gmap string Z)
    (graf_text : string) : (list ParsedGraf * Z * gmap string Z) * option exn :=
  let '(out, base_idx, UNIQ_WORDS) := st in
  match doc_id meta with
  | None => (st, Some KeyError)
  | Some i =>
      match parse_graf i graf_text base_idx UNIQ_WORDS with
      | (Ok (grafs, new_base_idx), UNIQ_WORDS') =>
          ((out ++ grafs, new_base_idx, UNIQ_WORDS'), None)
      | (Raise e, UNIQ_WORDS') => ((out, base_idx, UNIQ_WORDS'), Some e)
      end
  end.

(** The body of [for meta in json_iter]. *)
Definition parse_doc_meta (st : list ParsedGraf * gmap string Z) (meta : Doc)
    : (list ParsedGraf * gmap string Z) * option exn :=
  let '(out, UNIQ_WORDS) := st in
  match doc_text meta with
  | None => (st, Some KeyError)
  | Some text =>
      let '((out', _, UNIQ_WORDS'), err) :=
        loop (parse_doc_graf meta) (out, 0, UNIQ_WORDS) (filter_quotes text) in
      ((out', UNIQ_WORDS'), err)
  end.

(** [parse_doc] run to its end from a registry: the sentences yielded,
    the exception that ended it, and the registry afterwards. *)
Definition parse_doc (json_iter : list Doc) (UNIQ_WORDS : gmap string Z)
    : gen ParsedGraf * gmap string Z :=
  let '((out, UNIQ_WORDS'), err) := loop parse_doc_meta ([], UNIQ_WORDS) json_iter in
  ((out, err), UNIQ_WORDS').
End parsing.

(** ** Vocabulary of the properties *)

(** How often [get_tiles] yielded a pair, over a list of yields. *)
Definition occurrences (pair : string * string) (pairs : list (string * string)) : nat :=
  length (filter (λ p, p = pair) pairs).

(** Every pair [build_graph] receives, in order. *)
Definition all_tiles (json_iter : list ParsedGraf) : list (string * string) :=
  meta ← json_iter; get_tiles (graf meta) 3.

(** The tokens of [run] continue a phrase whose last token stood at
    [last_idx]: each is kept, ranked, and one position after its
    predecessor. *)
Fixpoint is_run (ranks : gmap string R) (last_idx : Z) (run : list WordNode) : bool :=
  match run with
  | [] => true
  | w :: run' =>
      bool_decide (0 < word_id w) && bool_decide (root w ∈ dom ranks)
      && bool_decide (idx w - last_idx = 1) && is_run ranks (idx w) run'
  end.

(** The lexemes of the ranked tokens of [run]. *)
Definition run_lexemes (ranks : gmap string R) (run : list WordNode) : list RankedLexeme :=
  omap (λ w, lexeme_of w <$> ranks !! root w) run.

(** [last_idx] after the loop has gone through [run]. *)
Definition last_idx_after (last_idx : Z) (run : list WordNode) : Z :=
  default last_idx (idx <$> last run).

(** The rank of a phrase in the words of the specification: the square
    root of the sum of the members' squared ranks, over the member count,
    plus the largest single-word rank. *)
Definition phrase_rank_spec (member_ranks : list R) (max_single : R) : R :=
  (sqrt (foldr (λ r acc, r * r + acc) 0 member_ranks) / INR (length member_ranks)
   + max_single)%R.

(** The same formula on binary64 floats, squares as products and the sum
    from the left as [sum] accumulates it. *)
Definition phrase_rank_binary64 (member_ranks : list PrimFloat.float)
    (max_single : PrimFloat.float) : PrimFloat.float :=
  PrimFloat.add
    (PrimFloat.div
       (PrimFloat.sqrt
          (foldl PrimFloat.add PrimFloat.zero ((λ r, PrimFloat.mul r r) <$> member_ranks)))
       (PrimFloat.of_uint63 (Uint63.of_Z (len member_ranks))))
    max_single.

(** The binary64 float nearest to [n / d], for small [n] and [d]: what the
    Python literals 0.3, 0.4, 0.5 and 0.75 denote (division rounds to
    nearest). *)
Definition binary64 (n d : Z) : PrimFloat.float :=
  PrimFloat.div (PrimFloat.of_uint63 (Uint63.of_Z n)) (PrimFloat.of_uint63 (Uint63.of_Z d)).

(** The lexeme is one [limit_keyphrases] skips: its [pos] begins with "v". *)
Definition is_verb (rl : RankedLexeme) : bool :=
  match first_char (RankedLexeme.pos rl) with
  | Ok c => bool_decide (c = "v")
  | Raise _ => false
  end.

(** The total number of words [limit_sentences] yielded. *)
Definition total_words (out : list (list string * Z)) : Z :=
  foldr (λ item acc, len item.1 + acc) 0 out.

(** What [limit_sentences] yields for one sentence. *)
Definition sentence_item (p : SummarySent) : list string * Z :=
  (split " " (SummarySent.text p), SummarySent.idx p).

(** Every rank of the dictionary is positive, as PageRank's scores are. *)
Definition positive_ranks (ranks : gmap string R) : Prop :=
  ∀ k r, ranks !! k = Some r → (0 < r)%R.

Definition positive_lexemes (l : list RankedLexeme) : Prop :=
  Forall (λ rl, 0 < RankedLexeme.rank rl)%R l.

(** A chunk as [collect_chunks] yields it: [None], or lexemes that all
    satisfy [P]. *)
Definition chunk_of (P : RankedLexeme → Prop)
    (chunk : string * option (list RankedLexeme)) : Prop :=
  match chunk.2 with
  | Some c => Forall P c
  | None => True
  end.

(** The two words of every pair, in order. *)
Definition endpoints (pairs : list (string * string)) : list string :=
  pair ← pairs; [pair.1; pair.2].

(** The words of the lexemes of [phrase] from position [i] on read [np]. *)
Definition aligned_at (phrase : list RankedLexeme) (np : list string) (i : nat) : Prop :=
  RankedLexeme.text <$> take (length np) (drop i phrase) = np.

(** The list is in descending order of [key]. *)
Definition descending {A} (key : A → R) (l : list A) : Prop :=
  StronglySorted (λ a b, key b <= key a)%R l.

Section similarity_vocabulary.
Variable MinHash : Type.
Variable mh_digest : list string → MinHash.
Variable jaccard : MinHash → MinHash → R.

(** Sentence [j] of the stream is the last one with the text [text], and
    [dist] is its distance. *)
Definition last_with_text (kernel : list (RankedLexeme * MinHash))
    (json_iter : list ParsedGraf) (text : string) (dist : R) (j : Z) : Prop :=
  ∃ meta, 0 ≤ j ∧ json_iter !! Z.to_nat j = Some meta
          ∧ sentence_text meta = text
          ∧ dist = sentence_dist MinHash mh_digest jaccard kernel meta
          ∧ ∀ j' meta', json_iter !! j' = Some meta' → sentence_text meta' = text →
                        (j' ≤ Z.to_nat j)%nat.
End similarity_vocabulary.

(** The word begins with a character before which [make_sentence] puts no
    space. *)
Definition punctuation_led (word : string) : bool :=
  match first_char word with
  | Ok c => in_str c NO_SPACE_BEFORE
  | Raise _ => false
  end.

(** A word after the first, with the space [make_sentence] puts before it. *)
Definition spaced (word : string) : string :=
  if punctuation_led word then word else " " +:+ word.

(** The sentence text in one expression: the first word as it is, every
    later word with its space. *)
Definition rendered (sent_text : list string) : string :=
  match sent_text with
  | [] => ""
  | word :: rest => word +:+ join "" (spaced <$> rest)
  end.

(** What the loop of [make_sentence] appends for a word after the first. *)
Definition pieces (word : string) : list string :=
  if punctuation_led word then [word] else [" "; word].

(** Every key of the lexeme dictionary is the ids of its lexeme, no key
    occurs twice, and no lexeme has an empty list of ids. *)
Definition well_keyed (lex : lexicon) : Prop :=
  NoDup lex.*1
  ∧ Forall (λ kv, kv.1 = RankedLexeme.ids kv.2 ∧ RankedLexeme.ids kv.2 ≠ []) lex.

(** The string holds no occurrence of the character. *)
Definition free_of (sep : ascii) (s : string) : bool :=
  all_chars (λ c, negb (Ascii.eqb c sep)) s.

(** [\w] without the underscore: a letter or a digit. *)
Definition is_alnum (c : ascii) : bool :=
  is_word_char c && negb (Ascii.eqb c "_").

(** The lines of a text that take part in a paragraph: stripped, and not
    blank. *)
Definition text_lines (lines : list string) : list string :=
  filter (λ line, line ≠ "") (strip <$> lines).

(** The number of blank lines. *)
Definition blank_lines (lines : list string) : nat :=
  length (filter (λ line, line = "") (strip <$> lines)).

(** Every identifier of the registry is below its size, and no two roots
    share one. *)
Definition registry_ok (UNIQ_WORDS : gmap string Z) : Prop :=
  (∀ k i, UNIQ_WORDS !! k = Some i → 0 ≤ i < Z.of_nat (size UNIQ_WORDS))
  ∧ (∀ k k' i, UNIQ_WORDS !! k = Some i → UNIQ_WORDS !! k' = Some i → k = k').

(** A token agrees with the registry: a kept token carries the identifier
    of its root, any other token the identifier 0. *)
Definition token_ok (UNIQ_WORDS : gmap string Z) (w : WordNode) : Prop :=
  (keep w = 1 ∧ UNIQ_WORDS !! root w = Some (word_id w))
  ∨ (keep w = 0 ∧ word_id w = 0).

(** The registry is in order and every token yielded so far agrees with
    it. *)
Definition corpus_ok (out : list ParsedGraf) (UNIQ_WORDS : gmap string Z) : Prop :=
  registry_ok UNIQ_WORDS
  ∧ Forall (λ meta, Forall (token_ok UNIQ_WORDS) (graf meta)) out.

(** The state of the token loop after the tags [pre] of a sentence that
    began in the state [st0]. *)
Definition tokens_of (st0 : parse_state) (pre : list (string * string)) (st : parse_state)
    : Prop :=
  markup st = markup st0
  ∧ new_base_idx st = new_base_idx st0 + len pre
  ∧ idx <$> cur_graf st = seqZ (new_base_idx st0) (len pre)
  ∧ digest st = root <$> cur_graf st
  ∧ length (cur_graf st) = length pre
  ∧ Forall (token_ok (uniq_words st)) (cur_graf st).

(** The tagged unit is neither punctuation nor a symbol: [parse_graf]
    pairs it with the next word of the sentence. *)
Definition wordlike (pos_tag : string * string) : bool :=
  negb (is_not_word pos_tag.1 || bool_decide (pos_tag.2 = "SYM")).

(** The units [rest] of the sentence can still be parsed from [st]. *)
Definition can_parse (sent : Sentence) (rest : list (string * string)) (st : parse_state)
    : Prop :=
  0 ≤ raw_idx st
  ∧ Forall (λ pos_tag, wordlike pos_tag = true → pos_tag.2 ≠ "") rest
  ∧ raw_idx st + len (filter (λ pos_tag, wordlike pos_tag = true) rest) ≤ len (words sent).

Section parsing_vocabulary.
Variable tag : string → list (string * string).
Variable hexdigest : list string → string.

(** The records of [parse_graf] after the sentences [pre] of a paragraph
    whose tokens are numbered from [base_idx]. *)
Definition records_of (doc_id : string) (base_idx : Z) (pre : list Sentence)
    (st : parse_state) : Prop :=
  Forall2 (λ meta sent, id meta = doc_id
                        ∧ sha1 meta = hexdigest (root <$> graf meta)
                        ∧ length (graf meta) = length (tag (sent_str sent)))
          (markup st) pre
  ∧ idx <$> (markup st ≫= graf) = seqZ base_idx (new_base_idx st - base_idx)
  ∧ base_idx ≤ new_base_idx st
  ∧ Forall (λ meta, Forall (token_ok (uniq_words st)) (graf meta)) (markup st).

(** Every word-like unit of the sentence has a tag that is not empty, and
    the sentence has a word for each of them. *)
Definition well_tagged (sent : Sentence) : Prop :=
  Forall (λ pos_tag, wordlike pos_tag = true → pos_tag.2 ≠ "") (tag (sent_str sent))
  ∧ (length (filter (λ pos_tag, wordlike pos_tag = true) (tag (sent_str sent)))
     ≤ length (words sent))%nat.

End parsing_vocabulary.

(** ** Example data *)

Definition dog_bites_dog : ParsedGraf :=
  mkParsedGraf "doc" "sha"
    [ mkWordNode 1 "Dog" "dog" "NN" 1 0;
      mkWordNode 2 "bites" "bite" "VBZ" 1 1;
      mkWordNode 1 "dog" "dog" "NN" 1 2 ].

(** Kept tokens at positions 0, 1 and 4, unkept ones in between. *)
Definition gapped_sentence (r0 r1 r4 : string) : list WordNode :=
  [ mkWordNode 1 r0 r0 "NN" 1 0;
    mkWordNode 2 r1 r1 "NN" 1 1;
    mkWordNode 0 "of" "of" "IN" 0 2;
    mkWordNode 0 "the" "the" "DT" 0 3;
    mkWordNode 3 r4 r4 "NN" 1 4 ].

Definition big : WordNode := mkWordNode 1 "Big" "big" "JJ" 1 0.
Definition dog : WordNode := mkWordNode 2 "dog" "dog" "NN" 1 1.
Definition full_stop : WordNode := mkWordNode 0 "." "." "." 0 2.

Definition big_dog_ranks : gmap string R := {[ "big" := (3/10)%R; "dog" := (4/10)%R ]}.

(** "Big dog": the run of ranked tokens reaches the end of the sentence. *)
Definition open_sentence : ParsedGraf := mkParsedGraf "doc" "sha" [big; dog].
(** "Big dog.": the full stop breaks the run. *)
Definition closed_sentence : ParsedGraf := mkParsedGraf "doc" "sha" [big; dog; full_stop].
(** ".": nothing to rank. *)
Definition punctuation_only : ParsedGraf := mkParsedGraf "doc" "sha" [full_stop].

(** A chunker that finds no noun phrase. *)
Definition no_chunks : string → list string := λ _, [].


(** A key phrase whose rank is the mean of any list of copies of it. *)
Definition keyword : RankedLexeme := RankedLexeme.mk "keyword" 1 [1] "nn".

(** Three summary sentences of 4, 5 and 1 words, in descending distance. *)
Definition summary : list SummarySent :=
  [ SummarySent.mk (9/10) 2 "the quick brown fox";
    SummarySent.mk (5/10) 0 "jumps over the lazy dog";
    SummarySent.mk (1/10) 1 "again" ].

(** Stand-ins for the collaborators: one sentence per paragraph, words cut
    at spaces, every word tagged as a noun and its own lemma, and the digest
    the concatenation of the roots. *)
Definition toy_sentences (graf_text : string) : list Sentence :=
  [mkSentence graf_text (split " " graf_text)].
Definition toy_tag (sent : string) : list (string * string) :=
  (λ w, (w, "NN")) <$> split " " sent.
Definition toy_lemmatize (word pos_family : string) : string := word.
Definition toy_hexdigest (roots : list string) : string := join "" roots.

Definition good_doc : Doc := mkDoc (Some "d2") (Some "dog").
Definition no_text_doc : Doc := mkDoc (Some "d1") None.
Definition no_id_empty_doc : Doc := mkDoc None (Some "").

(** The lexemes of the run "big dog". *)
Definition big_dog_phrase : list RankedLexeme :=
  [lexeme_of big (3/10); lexeme_of dog (4/10)].

(** Stand-ins for MinHash: one digest for every data, at distance 1 from
    itself. *)
Definition toy_digest (data : list string) : unit := ().
Definition toy_jaccard (m1 m2 : unit) : R := 1%R.

(** The records and the registry of the paragraph "big dog" under the toy
    collaborators. *)
Definition big_dog_grafs : list ParsedGraf :=
  [mkParsedGraf "d3" "bigdog"
     [mkWordNode 1 "big" "big" "NN" 1 0; mkWordNode 2 "dog" "dog" "NN" 1 1]].
Definition big_dog_registry : gmap string Z :=
  <["dog" := 2]> (<["big" := 1]> UNIQ_WORDS_init).
Definition big_dog_doc : Doc := mkDoc (Some "d3") (Some "big dog").

(** ** Graph analytics: properties *)

Lemma elem_of_py_range lo hi k : k ∈ py_range lo hi ↔ lo ≤ k < hi.
Proof. unfold py_range. rewrite elem_of_seqZ. lia. Qed.

Lemma NoDup_py_range lo hi : NoDup (py_range lo hi).
Proof. apply NoDup_seqZ. Qed.

Lemma elem_of_option_list {A} (o : option A) x : x ∈ option_list o ↔ o = Some x.
Proof.
  destruct o as [y|]; simpl.
  - rewrite list_elem_of_singleton. split; congruence.
  - split; [by intros ?%elem_of_nil | done].
Qed.

(** A slot pair is yielded exactly when both slots hold a kept token, the
    second is among the [size] slots after the first, and the positions are
    at most [size] apart. *)
Lemma elem_of_tile_slots keeps size i j :
  (i, j) ∈ tile_slots keeps size ↔
  ∃ w0 w1, keeps !! Z.to_nat i = Some w0 ∧ keeps !! Z.to_nat j = Some w1
           ∧ 0 ≤ i < j ∧ j ≤ i + size ∧ idx w1 - idx w0 ≤ size.
Proof.
  unfold tile_slots. rewrite list_elem_of_bind. split.
  - intros (i' & H & Hi). apply elem_of_py_range in Hi.
    apply list_elem_of_bind in H as (w0 & H & Hw0).
    apply elem_of_option_list in Hw0.
    apply list_elem_of_bind in H as (j' & H & Hj). apply elem_of_py_range in Hj.
    apply list_elem_of_bind in H as (w1 & H & Hw1).
    apply elem_of_option_list in Hw1.
    case_decide; [|by apply elem_of_nil in H].
    apply list_elem_of_singleton in H. injection H as -> ->.
    exists w0, w1. repeat split; auto; lia.
  - intros (w0 & w1 & Hw0 & Hw1 & Hij & Hsz & Hgap).
    pose proof (lookup_lt_Some _ _ _ Hw1) as Hlt. unfold len.
    exists i. split; [|apply elem_of_py_range; lia].
    apply list_elem_of_bind. exists w0. split; [|by apply elem_of_option_list].
    apply list_elem_of_bind. exists j. split; [|apply elem_of_py_range; lia].
    apply list_elem_of_bind. exists w1. split; [|by apply elem_of_option_list].
    rewrite decide_True by done. by apply list_elem_of_singleton.
Qed.

(** In particular the two lookups of [get_tiles] never miss. *)
Lemma tile_slots_in_range keeps size i j :
  (i, j) ∈ tile_slots keeps size → 0 ≤ i < j ∧ j < len keeps.
Proof.
  intros (w0 & w1 & _ & Hw1 & Hij & _)%elem_of_tile_slots.
  apply lookup_lt_Some in Hw1. unfold len. lia.
Qed.

Lemma NoDup_tile_slots keeps size : NoDup (tile_slots keeps size).
Proof.
  unfold tile_slots. apply NoDup_bind; [| |apply NoDup_py_range].
  - intros i1 i2 [i j] _ _ H1 H2.
    apply list_elem_of_bind in H1 as (w0 & H1 & _).
    apply list_elem_of_bind in H1 as (j1 & H1 & _).
    apply list_elem_of_bind in H1 as (w1 & H1 & _).
    apply list_elem_of_bind in H2 as (w0' & H2 & _).
    apply list_elem_of_bind in H2 as (j2 & H2 & _).
    apply list_elem_of_bind in H2 as (w1' & H2 & _).
    repeat case_decide; try (by apply elem_of_nil in H1); try (by apply elem_of_nil in H2).
    apply list_elem_of_singleton in H1, H2. congruence.
  - intros i _. destruct (keeps !! Z.to_nat i) as [w0|]; simpl; [|constructor].
    rewrite app_nil_r.
    apply NoDup_bind; [| |apply NoDup_py_range].
    + intros j1 j2 [i' j] _ _ H1 H2.
      apply list_elem_of_bind in H1 as (w1 & H1 & _).
      apply list_elem_of_bind in H2 as (w1' & H2 & _).
      repeat case_decide; try (by apply elem_of_nil in H1); try (by apply elem_of_nil in H2).
      apply list_elem_of_singleton in H1, H2. congruence.
    + intros j _. destruct (keeps !! Z.to_nat j) as [w1|]; simpl; [|constructor].
      case_decide; simpl; [apply NoDup_singleton | constructor].
Qed.

(** The yields of [get_tiles] are, one for one and in order, the roots at
    the slot pairs of [tile_slots]. *)
Lemma get_tiles_slots graf size :
  Forall2 (λ slot pair, ∃ w0 w1,
             filter (λ w, 0 < word_id w) graf !! Z.to_nat slot.1 = Some w0
             ∧ filter (λ w, 0 < word_id w) graf !! Z.to_nat slot.2 = Some w1
             ∧ pair = (root w0, root w1))
          (tile_slots (filter (λ w, 0 < word_id w) graf) size) (get_tiles graf size).
Proof.
  unfold tile_slots, get_tiles. cbv zeta.
  apply Forall2_bind, Forall_Forall2_diag, Forall_forall. intros i _.
  destruct (filter _ graf !! Z.to_nat i) as [w0|] eqn:E0; simpl; [|constructor].
  rewrite !app_nil_r.
  apply Forall2_bind, Forall_Forall2_diag, Forall_forall. intros j _.
  destruct (filter _ graf !! Z.to_nat j) as [w1|] eqn:E1; simpl; [|constructor].
  rewrite !app_nil_r.
  case_decide; constructor; [|constructor]. eauto.
Qed.

(** C5.  [get_tiles] yields the pair of roots at kept slots [i] and [j]
    exactly when [i < j], [j] is one of the [size] slots after [i], and the
    positions differ by at most [size]; each such slot pair is yielded once,
    in loop order.  With kept tokens at positions 0, 1 and 4 and [size = 3],
    the pair of positions (0, 1) is yielded and the pair (0, 4) is not. *)
Theorem get_tiles_window (graf : list WordNode) (size : Z) :
  let keeps := filter (λ w, 0 < word_id w) graf in
  (∀ i j, (i, j) ∈ tile_slots keeps size ↔
     ∃ w0 w1, keeps !! Z.to_nat i = Some w0 ∧ keeps !! Z.to_nat j = Some w1
              ∧ 0 ≤ i < j ∧ j ≤ i + size ∧ idx w1 - idx w0 ≤ size)
  ∧ NoDup (tile_slots keeps size)
  ∧ Forall2 (λ slot pair, ∃ w0 w1,
               keeps !! Z.to_nat slot.1 = Some w0 ∧ keeps !! Z.to_nat slot.2 = Some w1
               ∧ pair = (root w0, root w1))
            (tile_slots keeps size) (get_tiles graf size)
  ∧ (∀ r0 r1 r4,
       tile_slots (filter (λ w, 0 < word_id w) (gapped_sentence r0 r1 r4)) 3
         = [(0, 1); (1, 2)]
       ∧ get_tiles (gapped_sentence r0 r1 r4) 3 = [(r0, r1); (r1, r4)]).
Proof.
  intros keeps. split; [|split; [|split]].
  - intros i j. apply elem_of_tile_slots.
  - apply NoDup_tile_slots.
  - apply get_tiles_slots.
  - intros r0 r1 r4. split; reflexivity.
Qed.

(** [add_pair] touches one edge: it adds 1.0 to its weight, or creates it
    with weight 1.0. *)
Lemma add_pair_edge g pair pair' :
  edge (add_pair g pair) !! pair' =
  if decide (pair = pair')
  then Some (match edge g !! pair with Some w => w + 1 | None => 1 end)%R
  else edge g !! pair'.
Proof.
  destruct pair as [u v]. unfold add_pair. simpl.
  set (g1 := if has_node (if has_node g u then g else add_node g u) v then _ else _).
  assert (edge g1 = edge g) as Hg1.
  { unfold g1. destruct (has_node g u), (has_node _ v); reflexivity. }
  rewrite Hg1. destruct (edge g !! (u, v)) as [w|] eqn:E; simpl;
    rewrite ?Hg1; case_decide; subst;
    rewrite ?lookup_insert_eq, ?lookup_insert_ne by done; done.
Qed.

Lemma foldl_add_pair_edge pairs g pair :
  edge (foldl add_pair g pairs) !! pair =
  match occurrences pair pairs with
  | O => edge g !! pair
  | S n => Some (default 0%R (edge g !! pair) + INR (S n))%R
  end.
Proof.
  revert g. induction pairs as [|p pairs IH]; intros g; [done|].
  simpl foldl. rewrite IH, add_pair_edge. unfold occurrences.
  rewrite filter_cons. destruct (decide (p = pair)) as [->|Hp]; [|done].
  simpl length. destruct (length _) as [|n];
    destruct (edge g !! pair); simpl default; f_equal;
    rewrite ?S_INR; change (INR 0) with 0%R; lra.
Qed.

Lemma build_graph_all_tiles json_iter :
  build_graph json_iter = foldl add_pair empty_graph (all_tiles json_iter).
Proof.
  unfold build_graph, all_tiles. generalize empty_graph.
  induction json_iter as [|meta rest IH]; intros g; [done|].
  rewrite bind_cons, foldl_app. simpl. apply IH.
Qed.

(** The weight of an edge is the number of times its pair was yielded. *)
Lemma build_graph_edge json_iter pair :
  edge (build_graph json_iter) !! pair =
  match occurrences pair (all_tiles json_iter) with
  | O => None
  | S n => Some (INR (S n))
  end.
Proof.
  rewrite build_graph_all_tiles, foldl_add_pair_edge. simpl.
  rewrite lookup_empty. destruct (occurrences _ _); [done|]. simpl default.
  f_equal. lra.
Qed.

Lemma elem_of_occurrences pair pairs : (0 < occurrences pair pairs)%nat ↔ pair ∈ pairs.
Proof.
  unfold occurrences. induction pairs as [|p pairs IH]; simpl.
  - rewrite elem_of_nil. lia.
  - rewrite filter_cons, elem_of_cons. destruct (decide (p = pair)) as [->|Hne]; simpl.
    + split; [auto | lia].
    + rewrite IH. split; [auto | intros [?|?]; congruence].
Qed.

(** The graph has an edge for a pair exactly when [get_tiles] yielded the
    pair for some sentence; for a pair of equal roots the edge is a
    self-loop. *)
Lemma build_graph_edge_iff json_iter pair :
  is_Some (edge (build_graph json_iter) !! pair) ↔ pair ∈ all_tiles json_iter.
Proof.
  rewrite build_graph_edge, <- elem_of_occurrences.
  destruct (occurrences pair (all_tiles json_iter)); split.
  - by intros [? ?].
  - lia.
  - lia.
  - by eexists.
Qed.

(** A yielded pair comes from two different kept slots of its sentence. *)
Lemma elem_of_get_tiles graf size u v :
  (u, v) ∈ get_tiles graf size →
  ∃ i j w0 w1,
    (i, j) ∈ tile_slots (filter (λ w, 0 < word_id w) graf) size
    ∧ filter (λ w, 0 < word_id w) graf !! Z.to_nat i = Some w0
    ∧ filter (λ w, 0 < word_id w) graf !! Z.to_nat j = Some w1
    ∧ i < j ∧ root w0 = u ∧ root w1 = v.
Proof.
  intros [k Hk]%list_elem_of_lookup.
  destruct (Forall2_lookup_r _ _ _ _ _ (get_tiles_slots graf size) Hk)
    as ([i j] & Hslot & w0 & w1 & Hw0 & Hw1 & Hpair).
  simpl in Hw0, Hw1. injection Hpair as -> ->.
  apply list_elem_of_lookup_2 in Hslot.
  exists i, j, w0, w1. repeat split; auto.
  apply tile_slots_in_range in Hslot. lia.
Qed.

(** C2, as it holds of the code.  Every edge of the graph has weight at
    least 1, namely the number of times its pair was yielded, and it joins
    the roots of two different kept slots [i < j] of one sentence's window.
    (The two slots may hold the same root: the edge is then a self-loop.) *)
Theorem build_graph_edges (json_iter : list ParsedGraf) (u v : string) (w : R) :
  edge (build_graph json_iter) !! (u, v) = Some w →
  (1 <= w)%R
  ∧ w = INR (occurrences (u, v) (all_tiles json_iter))
  ∧ ∃ meta i j w0 w1,
      meta ∈ json_iter
      ∧ (i, j) ∈ tile_slots (filter (λ w, 0 < word_id w) (graf meta)) 3
      ∧ filter (λ w, 0 < word_id w) (graf meta) !! Z.to_nat i = Some w0
      ∧ filter (λ w, 0 < word_id w) (graf meta) !! Z.to_nat j = Some w1
      ∧ i < j ∧ root w0 = u ∧ root w1 = v.
Proof.
  rewrite build_graph_edge. intros Hw.
  destruct (occurrences _ _) as [|n] eqn:Hocc; [done|].
  assert (w = INR (S n)) as -> by congruence.
  split; [|split; [done|]].
  - pose proof (S_INR n). pose proof (pos_INR n). lra.
  - assert ((u, v) ∈ all_tiles json_iter) as Hin
      by (apply elem_of_occurrences; lia).
    apply list_elem_of_bind in Hin as (meta & Hin & Hmeta).
    destruct (elem_of_get_tiles _ _ _ _ Hin) as (i & j & w0 & w1 & H).
    exists meta, i, j, w0, w1. tauto.
Qed.

Lemma build_graph_edges_witness :
  edge (build_graph [dog_bites_dog]) !! ("dog", "bite") = Some 1%R ∧ (1 <= 1)%R.
Proof.
  assert (edge (build_graph [dog_bites_dog]) !! ("dog", "bite") = Some 1%R) as H
    by (vm_compute; reflexivity).
  split; [exact H|].
  exact (proj1 (build_graph_edges [dog_bites_dog] "dog" "bite" 1 H)).
Defined.

(** The sentence "Dog bites dog" puts the root "dog" at two kept slots of
    one window: the graph gets the self-loop dog -> dog. *)
Lemma build_graph_self_loop :
  get_tiles (graf dog_bites_dog) 3 = [("dog", "bite"); ("dog", "dog"); ("bite", "dog")]
  ∧ edge (build_graph [dog_bites_dog]) !! ("dog", "dog") = Some 1%R.
Proof. split; vm_compute; reflexivity. Qed.

(** ** Key phrases: properties *)

Lemma foldl_Rplus (a : R) (xs : list R) : foldl Rplus a xs = (a + sum xs)%R.
Proof.
  unfold sum. revert a. induction xs as [|x xs IH]; intros a; simpl.
  - lra.
  - rewrite IH, (IH (0 + x)%R). lra.
Qed.

Lemma sum_nil : sum [] = 0%R.
Proof. reflexivity. Qed.

Lemma sum_cons x xs : sum (x :: xs) = (x + sum xs)%R.
Proof. unfold sum at 1. simpl. rewrite foldl_Rplus. lra. Qed.

Lemma sum_foldr xs : sum xs = foldr Rplus 0%R xs.
Proof. induction xs as [|x xs IH]; [done|]. rewrite sum_cons, IH. done. Qed.

Lemma sum_Permutation xs ys : xs ≡ₚ ys → sum xs = sum ys.
Proof. induction 1; rewrite ?sum_cons; try lra; congruence. Qed.

Lemma sum_scale (c : R) xs : sum ((λ x, x / c)%R <$> xs) = (sum xs / c)%R.
Proof.
  induction xs as [|x xs IH].
  - rewrite fmap_nil, sum_nil. lra.
  - rewrite fmap_cons, !sum_cons, IH. lra.
Qed.

Lemma insert_desc_Permutation x l : insert_desc x l ≡ₚ x :: l.
Proof.
  induction l as [|y l IH]; simpl; [done|].
  case_decide; [|done]. rewrite IH. apply Permutation_swap.
Qed.

Lemma sorted_by_rank_desc_Permutation l : sorted_by_rank_desc l ≡ₚ l.
Proof.
  induction l as [|x l IH]; simpl; [done|].
  rewrite insert_desc_Permutation. by constructor.
Qed.


Lemma float_div_nonzero x y : y ≠ 0%R → float_div x y = Ok (x / y)%R.
Proof. intros. unfold float_div. by rewrite decide_False. Qed.

Lemma mapM_normalize (sum_ranks : R) (l : list RankedLexeme) :
  sum_ranks ≠ 0%R →
  mapM (λ rl, r ← float_div (RankedLexeme.rank rl) sum_ranks; Ok (replace_rank rl r)) l
  = Ok ((λ rl, replace_rank rl (RankedLexeme.rank rl / sum_ranks)) <$> l).
Proof.
  intros Hs. induction l as [|rl l IH]; [done|].
  cbn [mapM]. rewrite IH, float_div_nonzero by done. done.
Qed.



Lemma dict_get_set {K V} `{EqDecision K} (k : K) (v : V) (d : pydict K V) :
  dict_get k (dict_set k v d) = Some v.
Proof.
  induction d as [|[k' v'] d IH]; simpl.
  - by rewrite decide_True.
  - destruct (decide (k' = k)) as [->|Hne]; simpl.
    + by rewrite decide_True.
    + by rewrite decide_False.
Qed.

Lemma foldlM_app {A B} (body : A → B → result A) a l1 l2 :
  foldlM body a (l1 ++ l2) = (a' ← foldlM body a l1; foldlM body a' l2).
Proof.
  revert a. induction l1 as [|x l1 IH]; intros a; [done|].
  simpl. destruct (body a x); simpl; [apply IH | done].
Qed.

Lemma getkey_dom {V} (d : gmap string V) k :
  k ∈ dom d → ∃ v, d !! k = Some v ∧ getkey d k = Ok v.
Proof.
  intros [v Hv]%elem_of_dom. exists v. unfold getkey. by rewrite Hv.
Qed.

(** The code's rank of a chunk is the formula of the specification. *)
Lemma phrase_rank_code (p : list RankedLexeme) (max_single_rank : R) :
  (sqrt (sum ((λ rl, RankedLexeme.rank rl ^ 2) <$> p)) / IZR (len p) + max_single_rank)%R
  = phrase_rank_spec (RankedLexeme.rank <$> p) max_single_rank.
Proof.
  unfold phrase_rank_spec, len. rewrite length_fmap, <- INR_IZR_INZ.
  f_equal. f_equal. f_equal.
  induction p as [|rl p IH]; [done|].
  rewrite !fmap_cons, sum_cons, IH. simpl. lra.
Qed.

Lemma phrase_rank_spec_example : phrase_rank_spec [(3/10)%R; (4/10)%R] (1/2) = (3/4)%R.
Proof.
  unfold phrase_rank_spec. simpl.
  replace (3 / 10 * (3 / 10) + (4 / 10 * (4 / 10) + 0))%R with ((1/2) * (1/2))%R by lra.
  rewrite sqrt_square by lra. lra.
Qed.

(** On binary64 floats the example is exact as well: the squares of 0.3 and
    0.4 round to a sum of exactly 0.25. *)
Lemma phrase_rank_binary64_example :
  phrase_rank_binary64 [binary64 3 10; binary64 4 10] (binary64 1 2) = binary64 3 4.
Proof. vm_compute. reflexivity. Qed.

(** C6.  The body of the chunk loop stores, under the key of its ids, a
    lexeme marked "np" whose rank is sqrt(r_1^2 + ... + r_n^2) / n +
    max_single for the ranks r_1..r_n of the chunk's members; for member
    ranks 0.3 and 0.4 and max_single 0.5 this is 0.75. *)
Theorem phrase_rank_formula (max_single_rank : R) (lex : lexicon) (text : string)
    (rl : RankedLexeme) (p : list RankedLexeme) :
  let members := rl :: p in
  let ids := elements (⋃ ((λ rl, list_to_set (RankedLexeme.ids rl)) <$> members) : gset Z) in
  let np_rl := RankedLexeme.mk text
                 (phrase_rank_spec (RankedLexeme.rank <$> members) max_single_rank)
                 ids "np" in
  add_chunk max_single_rank lex (text, Some members) = Ok (dict_set ids np_rl lex)
  ∧ dict_get ids (dict_set ids np_rl lex) = Some np_rl
  ∧ (RankedLexeme.rank <$> members = [(3/10)%R; (4/10)%R] →
     max_single_rank = (1/2)%R → RankedLexeme.rank np_rl = (3/4)%R).
Proof.
  intros members ids np_rl. split; [|split].
  - unfold add_chunk. rewrite decide_False by done.
    fold members. fold ids. rewrite phrase_rank_code. done.
  - apply dict_get_set.
  - intros Hm Hs.
    change (phrase_rank_spec (RankedLexeme.rank <$> members) max_single_rank = (3/4)%R).
    rewrite Hm, Hs. apply phrase_rank_spec_example.
Qed.

Lemma foldlM_invariant {A B} (body : A → B → result A) (P : A → Prop) :
  (∀ a x a', P a → body a x = Ok a' → P a') →
  ∀ l a a', P a → foldlM body a l = Ok a' → P a'.
Proof.
  intros Hbody l. induction l as [|x l IH]; intros a a' Ha H; simpl in H.
  - by injection H as <-.
  - destruct (body a x) as [a1|e] eqn:E; simpl in H; [|done]. eauto.
Qed.

Lemma values_dict_set_Forall {K V} `{EqDecision K} (P : V → Prop) (k : K) v (d : pydict K V) :
  Forall P (values d) → P v → Forall P (values (dict_set k v d)).
Proof.
  unfold values. induction d as [|[k' v'] d IH]; simpl; intros Hd Hv.
  - by constructor.
  - apply Forall_cons in Hd as [Hv' Hd]. case_decide; simpl; constructor; auto.
Qed.

Lemma sum_positive xs : Forall (λ x, 0 < x)%R xs → xs ≠ [] → (0 < sum xs)%R.
Proof.
  induction 1 as [|x xs Hx Hxs IH]; [done|]. intros _. rewrite sum_cons.
  destruct xs as [|y ys]; [rewrite sum_nil; lra|].
  assert (0 < sum (y :: ys))%R by (apply IH; done). lra.
Qed.

Lemma find_chunk_sub_loop_slice phrase np i js c :
  find_chunk_sub_loop phrase np i js = Ok (Some c) → c = slice phrase i (i + len np).
Proof.
  induction js as [|j js IH]; simpl; [congruence|].
  destruct (getitem phrase (i + j)) as [p|]; simpl; [|done].
  destruct (getitem np j) as [npj|]; simpl; [|done].
  case_decide; [done | exact IH].
Qed.

Lemma find_chunk_loop_slice phrase np starts c :
  find_chunk_loop phrase np starts = Ok (Some c) →
  ∃ i, c = slice phrase i (i + len np).
Proof.
  induction starts as [|i starts IH]; simpl; [done|].
  destruct (find_chunk_sub phrase np i) as [parsed_np|] eqn:E; simpl; [|done].
  destruct (truthy parsed_np); [|exact IH].
  intros [= ->]. exists i. by eapply find_chunk_sub_loop_slice.
Qed.

Lemma slice_Forall {A} (P : A → Prop) (l : list A) lo hi :
  Forall P l → Forall P (slice l lo hi).
Proof. intros. unfold slice. by apply Forall_take, Forall_drop. Qed.

Lemma find_chunk_Forall (P : RankedLexeme → Prop) phrase np c :
  Forall P phrase → find_chunk phrase np = Ok (Some c) → Forall P c.
Proof.
  intros HP (i & ->)%find_chunk_loop_slice. by apply slice_Forall.
Qed.

Section phrases_properties.
Variable noun_phrases : string → list string.

(** A token that continues the run is appended to [phrase]; nothing else
    changes. *)
Lemma phrase_step_collect ranks m st w :
  bool_decide (0 < word_id w) && bool_decide (root w ∈ dom ranks)
  && bool_decide (idx w - s_last_idx st = 1) = true →
  ∃ r, ranks !! root w = Some r
       ∧ phrase_step noun_phrases ranks m st w
         = Ok (mkScan (idx w) (s_phrase st ++ [lexeme_of w r]) (s_lex st) (s_chunked st)).
Proof.
  intros H. unfold phrase_step. rewrite H.
  apply andb_prop in H as [[_ Hd]%andb_prop _]. apply bool_decide_eq_true in Hd.
  destruct (getkey_dom ranks (root w) Hd) as (r & Hr & ->). by exists r.
Qed.

(** Scanning a run only grows [phrase]: [lex] is untouched and nothing is
    handed to [collect_chunks]. *)
Lemma phrase_scan_run ranks m run : ∀ st,
  is_run ranks (s_last_idx st) run = true →
  foldlM (phrase_step noun_phrases ranks m) st run
  = Ok (mkScan (last_idx_after (s_last_idx st) run)
               (s_phrase st ++ run_lexemes ranks run) (s_lex st) (s_chunked st)).
Proof.
  induction run as [|w run IH]; intros st Hrun.
  - destruct st. simpl. unfold last_idx_after. simpl. by rewrite app_nil_r.
  - simpl in Hrun. apply andb_prop in Hrun as [Hw Hrun].
    destruct (phrase_step_collect ranks m st w Hw) as (r & Hr & Hstep).
    simpl foldlM. rewrite Hstep. simpl. rewrite IH by done. simpl.
    unfold run_lexemes. simpl omap. rewrite Hr. simpl.
    rewrite <- app_assoc. f_equal. f_equal.
    unfold last_idx_after. rewrite last_cons. by destruct (last run).
Qed.

(** C10.  When a sentence ends in a run of kept, ranked, contiguous
    tokens, the phrase pass leaves [lex] and the list of phrases handed
    to [collect_chunks] as they were before the run's first token: the
    run is still in [phrase] when the loop ends, and the sentence's
    result drops it. *)
Theorem trailing_run_discarded (ranks : gmap string R) (acc : lexicon * R)
    (meta : ParsedGraf) (pre run : list WordNode) (lex : lexicon) (m : R)
    (w0 : WordNode) (st : scan) :
  graf meta = pre ++ run →
  foldlM (single_step ranks) acc (graf meta) = Ok (lex, m) →
  getitem (graf meta) 0 = Ok w0 →
  foldlM (phrase_step noun_phrases ranks m) (mkScan (idx w0 - 1) [] lex []) pre = Ok st →
  is_run ranks (s_last_idx st) run = true →
  phrase_pass noun_phrases ranks m lex (graf meta)
    = Ok (mkScan (last_idx_after (s_last_idx st) run)
                 (s_phrase st ++ run_lexemes ranks run) (s_lex st) (s_chunked st))
  ∧ normalize_sentence noun_phrases ranks acc meta = Ok (s_lex st, m).
Proof.
  intros Hsplit Hsingle Hw0 Hpre Hrun.
  assert (phrase_pass noun_phrases ranks m lex (graf meta)
    = Ok (mkScan (last_idx_after (s_last_idx st) run)
                 (s_phrase st ++ run_lexemes ranks run) (s_lex st) (s_chunked st)))
    as Hpass.
  { unfold phrase_pass. rewrite Hw0. simpl. rewrite Hsplit, foldlM_app, Hpre. simpl.
    by apply phrase_scan_run. }
  split; [done|].
  unfold normalize_sentence. cbv zeta. rewrite Hsingle. simpl. by rewrite Hpass.
Qed.

(** A chunk that [find_chunk] could not align reaches the loop body as
    [None]: the body raises TypeError. *)
Lemma add_chunk_unaligned m lex text : add_chunk m lex (text, None) = Raise TypeError.
Proof. reflexivity. Qed.

(** When the chunker's first phrase differs from the run's text and
    cannot be aligned, flushing the run raises TypeError. *)
Lemma flush_unaligned m lex phrase np nps :
  1 < len phrase →
  noun_phrases (join " " (RankedLexeme.text <$> phrase)) = np :: nps →
  np ≠ join " " (RankedLexeme.text <$> phrase) →
  find_chunk phrase (split " " np) = Ok None →
  flush noun_phrases m lex phrase = Raise TypeError.
Proof.
  intros Hlen Hnps Hne Hfind. unfold flush, collect_chunks.
  rewrite decide_True by done. cbv zeta. rewrite Hnps. simpl collect_chunks_loop.
  rewrite decide_True by done. rewrite Hfind.
  destruct (collect_chunks_loop phrase _ nps) as [[ys st] found]. simpl.
  destruct st; reflexivity.
Qed.

(** Division by a sum that is not zero: every lexeme is yielded with its
    rank over the sum, and the yielded ranks sum to 1. *)
Lemma normalize_nonzero_sum json_iter ranks lex max_single_rank :
  collect_lexemes noun_phrases json_iter ranks = Ok (lex, max_single_rank) →
  sum (RankedLexeme.rank <$> values lex) ≠ 0%R →
  ∃ out, normalize_key_phrases noun_phrases json_iter ranks = Ok out
         ∧ out = (λ rl, replace_rank rl (RankedLexeme.rank rl
                                         / sum (RankedLexeme.rank <$> values lex)))
                   <$> sorted_by_rank_desc (values lex)
         ∧ sum (RankedLexeme.rank <$> out) = 1%R.
Proof.
  intros Hc Hs. unfold normalize_key_phrases. rewrite Hc. simpl.
  rewrite mapM_normalize by done. eexists. split; [done|]. split; [done|].
  rewrite <- list_fmap_compose.
  change (RankedLexeme.rank ∘ _) with
    ((λ x, x / sum (RankedLexeme.rank <$> values lex))%R ∘ RankedLexeme.rank).
  rewrite list_fmap_compose, sum_scale.
  rewrite (sum_Permutation _ (RankedLexeme.rank <$> values lex)).
  - by apply Rdiv_diag.
  - by rewrite sorted_by_rank_desc_Permutation.
Qed.



(** C4, as it holds of the code.  When no lexeme was collected,
    [normalize_key_phrases] yields nothing and raises nothing: the sum of
    the ranks is 0, and no division by it is carried out. *)
Theorem normalize_empty_lexicon (json_iter : list ParsedGraf) (ranks : gmap string R)
    (max_single_rank : R) :
  collect_lexemes noun_phrases json_iter ranks = Ok ([], max_single_rank) →
  normalize_key_phrases noun_phrases json_iter ranks = Ok [].
Proof.
  intros Hc. unfold normalize_key_phrases. rewrite Hc. reflexivity.
Qed.
Lemma collect_chunks_loop_Forall (P : RankedLexeme → Prop) phrase text nps :
  Forall P phrase →
  Forall (chunk_of P) (collect_chunks_loop phrase text nps).1.1.
Proof.
  intros HP. induction nps as [|np nps IH]; simpl; [constructor|].
  case_decide; [|exact IH].
  destruct (find_chunk phrase (split " " np)) as [c|e] eqn:E; simpl; [|constructor].
  constructor; [|exact IH].
  unfold chunk_of. simpl. destruct c as [c|]; [|done]. by eapply find_chunk_Forall.
Qed.

Lemma collect_chunks_Forall (P : RankedLexeme → Prop) phrase :
  Forall P phrase → Forall (chunk_of P) (collect_chunks noun_phrases phrase).1.
Proof.
  intros HP. unfold collect_chunks. case_decide; [|constructor].
  cbv zeta.
  pose proof (collect_chunks_loop_Forall P phrase
                (join " " (RankedLexeme.text <$> phrase))
                (noun_phrases (join " " (RankedLexeme.text <$> phrase))) HP) as Hloop.
  destruct (collect_chunks_loop _ _ _) as [[ys st] found]. simpl in *.
  destruct st; [done|]. destruct found; simpl; [done|].
  destruct (all_not_verb phrase) as [[|]|]; simpl; try done.
  apply Forall_app. split; [done|]. constructor; [|constructor]. exact HP.
Qed.

Lemma add_chunk_positive m lex chunk lex' :
  (0 <= m)%R → positive_lexemes (values lex) →
  chunk_of (λ rl, 0 < RankedLexeme.rank rl)%R chunk →
  add_chunk m lex chunk = Ok lex' → positive_lexemes (values lex').
Proof.
  intros Hm Hlex Hchunk. destruct chunk as [text [p|]]; unfold add_chunk; [|done].
  case_decide as Hp; [done|]. intros [= <-].
  apply values_dict_set_Forall; [done|]. cbn [RankedLexeme.rank].
  unfold chunk_of in Hchunk. simpl in Hchunk.
  assert (0 < sum ((λ rl, RankedLexeme.rank rl ^ 2)%R <$> p))%R as Hsum.
  { apply sum_positive; [|by destruct p].
    apply Forall_fmap. eapply Forall_impl; [exact Hchunk|].
    intros rl Hrl. simpl. nra. }
  assert (0 < IZR (len p))%R as Hlen.
  { apply IZR_lt. unfold len. destruct p; [done|]. simpl. lia. }
  pose proof (sqrt_lt_R0 _ Hsum).
  assert (0 < sqrt (sum ((λ rl, RankedLexeme.rank rl ^ 2)%R <$> p)) / IZR (len p))%R
    by (apply Rdiv_lt_0_compat; done).
  change (0 < sqrt (sum ((λ rl, RankedLexeme.rank rl ^ 2)%R <$> p)) / IZR (len p) + m)%R.
  lra.
Qed.

Lemma flush_positive m lex phrase lex' :
  (0 <= m)%R → positive_lexemes (values lex) → positive_lexemes phrase →
  flush noun_phrases m lex phrase = Ok lex' → positive_lexemes (values lex').
Proof.
  intros Hm Hlex Hphrase. unfold flush. cbv zeta.
  pose proof (collect_chunks_Forall _ phrase Hphrase) as Hchunks.
  destruct (collect_chunks noun_phrases phrase) as [ys st]. simpl in *.
  destruct (foldlM (add_chunk m) lex ys) as [lex1|e] eqn:E; simpl; [|done].
  destruct st; [done|]. intros [= <-].
  revert lex lex1 Hlex E. induction Hchunks as [|y ys Hy Hys IH]; intros lex lex1 Hlex E.
  - by injection E as <-.
  - simpl in E. destruct (add_chunk m lex y) as [lex2|] eqn:E2; simpl in E; [|done].
    eapply IH; [|exact E]. by eapply add_chunk_positive.
Qed.

Lemma phrase_step_positive ranks m st w st' :
  positive_ranks ranks → (0 <= m)%R →
  positive_lexemes (values (s_lex st)) ∧ positive_lexemes (s_phrase st) →
  phrase_step noun_phrases ranks m st w = Ok st' →
  positive_lexemes (values (s_lex st')) ∧ positive_lexemes (s_phrase st').
Proof.
  intros Hranks Hm [Hlex Hphrase]. unfold phrase_step.
  destruct (_ && _).
  - unfold getkey. destruct (ranks !! root w) as [r|] eqn:Hr; simpl; [|done].
    intros [= <-]. simpl. split; [done|].
    apply Forall_app. split; [done|]. constructor; [|constructor].
    simpl. by eapply Hranks.
  - destruct (flush noun_phrases m (s_lex st) (s_phrase st)) as [lex'|] eqn:E; simpl; [|done].
    intros [= <-]. simpl. split; [|constructor]. by eapply flush_positive.
Qed.

Lemma single_step_positive ranks acc w acc' :
  positive_ranks ranks →
  positive_lexemes (values acc.1) ∧ (0 <= acc.2)%R →
  single_step ranks acc w = Ok acc' →
  positive_lexemes (values acc'.1) ∧ (0 <= acc'.2)%R.
Proof.
  intros Hranks [Hlex Hm]. destruct acc as [lex m]. unfold single_step.
  destruct (_ : result bool) as [[|]|] eqn:E; simpl; try done.
  - unfold getkey. destruct (ranks !! root w) as [r|] eqn:Hr; simpl; [|done].
    intros [= <-]. simpl in *. split.
    + apply values_dict_set_Forall; [done|]. simpl. by eapply Hranks.
    + etransitivity; [exact Hm | apply Rmax_l].
  - by intros [= <-].
Qed.

Lemma normalize_sentence_positive ranks acc meta acc' :
  positive_ranks ranks →
  positive_lexemes (values acc.1) ∧ (0 <= acc.2)%R →
  normalize_sentence noun_phrases ranks acc meta = Ok acc' →
  positive_lexemes (values acc'.1) ∧ (0 <= acc'.2)%R.
Proof.
  intros Hranks Hacc Hn. unfold normalize_sentence in Hn. cbv zeta in Hn.
  destruct (foldlM (single_step ranks) acc (graf meta)) as [[lex m]|] eqn:E1; [|done].
  pose proof (foldlM_invariant (single_step ranks)
                (λ acc, positive_lexemes (values acc.1) ∧ (0 <= acc.2)%R)
                (λ a x a' Ha, single_step_positive ranks a x a' Hranks Ha)
                _ _ _ Hacc E1) as [Hlex Hm]. simpl in Hlex, Hm.
  cbn [mbind result_bind] in Hn.
  destruct (phrase_pass noun_phrases ranks m lex (graf meta)) as [st|] eqn:E2; [|done].
  injection Hn as <-. simpl. split; [|done].
  unfold phrase_pass in E2. destruct (getitem (graf meta) 0) as [w0|]; [|done].
  cbn [mbind result_bind] in E2.
  refine (proj1 (foldlM_invariant (phrase_step noun_phrases ranks m)
            (λ st, positive_lexemes (values (s_lex st)) ∧ positive_lexemes (s_phrase st))
            (λ a x a' Ha, phrase_step_positive ranks m a x a' Hranks Hm Ha)
            _ _ _ _ E2)).
  simpl. split; [done | constructor].
Qed.

Lemma collect_lexemes_positive json_iter ranks lex m :
  positive_ranks ranks →
  collect_lexemes noun_phrases json_iter ranks = Ok (lex, m) →
  positive_lexemes (values lex).
Proof.
  intros Hranks Hc. unfold collect_lexemes in Hc.
  refine (proj1 (foldlM_invariant (normalize_sentence noun_phrases ranks)
            (λ acc, positive_lexemes (values acc.1) ∧ (0 <= acc.2)%R)
            (λ a x a' Ha, normalize_sentence_positive ranks a x a' Hranks Ha)
            _ _ (lex, m) _ Hc)).
  simpl. split; [constructor | lra].
Qed.

(** With positive ranks, as PageRank returns them, a lexeme map that is
    not empty never sums to zero. *)
Lemma normalize_positive_ranks json_iter ranks lex m :
  positive_ranks ranks →
  collect_lexemes noun_phrases json_iter ranks = Ok (lex, m) →
  lex ≠ [] →
  ∃ out, normalize_key_phrases noun_phrases json_iter ranks = Ok out
         ∧ sum (RankedLexeme.rank <$> out) = 1%R.
Proof.
  intros Hranks Hc Hne.
  destruct (normalize_nonzero_sum json_iter ranks lex m Hc)
    as (out & Hout & _ & Hsum).
  - pose proof (collect_lexemes_positive _ _ _ _ Hranks Hc) as Hpos.
    assert (0 < sum (RankedLexeme.rank <$> values lex))%R; [|lra].
    apply sum_positive; [by apply Forall_fmap|].
    destruct lex; [done | discriminate].
  - by exists out.
Qed.
End phrases_properties.

Lemma trailing_run_discarded_witness :
  normalize_sentence no_chunks big_dog_ranks ([], 0%R) open_sentence
  = Ok ([([2], lexeme_of dog (4/10))], Rmax 0 (4/10)).
Proof.
  refine (proj2 (trailing_run_discarded no_chunks big_dog_ranks ([], 0%R) open_sentence
                   [] [big; dog] [([2], lexeme_of dog (4/10))] (Rmax 0 (4/10)) big
                   (mkScan (-1) [] [([2], lexeme_of dog (4/10))] []) _ _ _ _ _));
    vm_compute; reflexivity.
Defined.

(** The same two tokens followed by a full stop: the run is flushed, and
    the phrase "big dog" is stored with rank sqrt(0.09 + 0.16)/2 + 0.4. *)
Lemma closed_sentence_phrase :
  ∃ lex m, collect_lexemes no_chunks [closed_sentence] big_dog_ranks = Ok (lex, m)
           ∧ dict_get [2; 1] lex
             = Some (RankedLexeme.mk "big dog"
                       (phrase_rank_spec [(3/10)%R; (4/10)%R] (Rmax 0 (4/10))) [2; 1] "np")
           ∧ dict_get [2; 1] [([2], lexeme_of dog (4/10))] = None.
Proof.
  set (members := [lexeme_of big (3/10); lexeme_of dog (4/10)]).
  assert (collect_lexemes no_chunks [closed_sentence] big_dog_ranks
          = Ok ([([2], lexeme_of dog (4/10));
                 ([2; 1], RankedLexeme.mk "big dog"
                            (sqrt (sum ((λ rl, RankedLexeme.rank rl ^ 2)%R <$> members))
                             / IZR (len members) + Rmax 0 (4/10))%R [2; 1] "np")],
                Rmax 0 (4/10))) as Hc
    by (vm_compute; reflexivity).
  rewrite phrase_rank_code in Hc.
  eexists _, _. split; [exact Hc|]. split; reflexivity.
Qed.




Lemma normalize_empty_lexicon_witness :
  normalize_key_phrases no_chunks [punctuation_only] ∅ = Ok [].
Proof.
  apply (normalize_empty_lexicon no_chunks [punctuation_only] ∅ 0).
  vm_compute. reflexivity.
Defined.

(** A corpus with nothing to rank, and the empty corpus: no lexeme is
    collected, and the generator ends without an exception. *)
Lemma normalize_empty_is_silent :
  collect_lexemes no_chunks [punctuation_only] ∅ = Ok ([], 0%R)
  ∧ normalize_key_phrases no_chunks [punctuation_only] ∅ = Ok []
  ∧ normalize_key_phrases no_chunks [] ∅ = Ok [].
Proof. repeat split; vm_compute; reflexivity. Qed.

(** C3.  On "Big dog." the chunker answers "big dogs" for the run "big dog",
    a phrase that is no contiguous part of the run: [find_chunk] returns
    None and [normalize_key_phrases] raises TypeError instead of dropping
    the phrase.  When the chunker answers "dog house", whose first word
    matches the run's last token, [find_chunk_sub] reads past the end of
    the run and raises IndexError. *)
Theorem unaligned_chunk_raises :
  find_chunk [lexeme_of big (3/10); lexeme_of dog (4/10)] (split " " "big dogs") = Ok None
  ∧ normalize_key_phrases (λ _, ["big dogs"]) [closed_sentence] big_dog_ranks
    = Raise TypeError
  ∧ find_chunk [lexeme_of big (3/10); lexeme_of dog (4/10)] (split " " "dog house")
    = Raise IndexError
  ∧ normalize_key_phrases (λ _, ["dog house"]) [closed_sentence] big_dog_ranks
    = Raise IndexError.
Proof. repeat split; vm_compute; reflexivity. Qed.

(** ** Document summarization: properties *)

(** The loop yields at most [phrase_limit + 1 - used] texts: the test
    [used > phrase_limit] lets one more through than [phrase_limit]. *)
Lemma limit_keyphrases_loop_length phrase_limit rank_thresh lex : ∀ used,
  (length (limit_keyphrases_loop phrase_limit rank_thresh used lex).1
   ≤ Z.to_nat (phrase_limit + 1 - used))%nat.
Proof.
  induction lex as [|rl lex IH]; intros used; simpl; [lia|].
  destruct (first_char (RankedLexeme.pos rl)) as [c|e]; simpl; [|lia].
  case_decide; [|apply IH].
  destruct (bool_decide (phrase_limit < used)) eqn:Hused; simpl; [lia|].
  apply bool_decide_eq_false in Hused.
  destruct (bool_decide _); simpl; [lia|].
  specialize (IH (used + 1)). lia.
Qed.

(** The texts yielded are those of the first lexemes that are no verbs, in
    order and without a gap: once the loop has stopped, nothing follows. *)
Lemma limit_keyphrases_loop_stops phrase_limit rank_thresh lex : ∀ used,
  (limit_keyphrases_loop phrase_limit rank_thresh used lex).1
  `prefix_of` RankedLexeme.text <$> filter (λ rl, is_verb rl = false) lex.
Proof.
  induction lex as [|rl lex IH]; intros used; [done|].
  cbn [limit_keyphrases_loop]. rewrite filter_cons.
  destruct (decide (is_verb rl = false)) as [Hnv|Hv]; unfold is_verb in *;
    destruct (first_char (RankedLexeme.pos rl)) as [c|e]; try apply prefix_nil.
  - apply bool_decide_eq_false in Hnv. rewrite decide_True by done.
    destruct (_ || _); [apply prefix_nil|].
    rewrite fmap_cons. apply prefix_cons, IH.
  - apply not_false_is_true, bool_decide_eq_true in Hv.
    rewrite decide_False by (intros H; by apply H). apply IH.
Qed.

Lemma limit_keyphrases_length json_iter phrase_limit :
  (length (limit_keyphrases json_iter phrase_limit).1 ≤ Z.to_nat (phrase_limit + 1))%nat.
Proof.
  unfold limit_keyphrases. destruct (mean _); simpl; [|lia].
  etransitivity; [apply limit_keyphrases_loop_length|]. lia.
Qed.

(** On copies of one lexeme that is no verb and not below the threshold,
    the loop yields [phrase_limit + 1 - used] texts if there are as many. *)
Lemma limit_keyphrases_loop_replicate phrase_limit rank_thresh rl c n : ∀ used,
  first_char (RankedLexeme.pos rl) = Ok c → c ≠ "v" →
  ¬ (RankedLexeme.rank rl < rank_thresh)%R →
  limit_keyphrases_loop phrase_limit rank_thresh used (replicate n rl)
  = (replicate (n `min` Z.to_nat (phrase_limit + 1 - used)) (RankedLexeme.text rl), None).
Proof.
  intros used Hc Hv Hr. revert used.
  induction n as [|n IH]; intros used; [done|].
  simpl. rewrite Hc, decide_True by done.
  rewrite (bool_decide_eq_false_2 (_ < _)%R) by done. rewrite orb_false_r.
  case_bool_decide as Hused.
  - replace (Z.to_nat (phrase_limit + 1 - used)) with 0%nat by lia. done.
  - rewrite IH. unfold gen_yield. simpl.
    replace (Z.to_nat (phrase_limit + 1 - used))
      with (S (Z.to_nat (phrase_limit + 1 - (used + 1)))) by lia.
    done.
Qed.

Lemma sum_replicate n (r : R) : sum (replicate n r) = (INR n * r)%R.
Proof.
  induction n as [|n IH].
  - unfold sum. simpl. lra.
  - change (replicate (S n) r) with (r :: replicate n r).
    rewrite sum_cons, IH, S_INR. lra.
Qed.

Lemma mean_replicate n (r : R) : mean (replicate (S n) r) = Ok r.
Proof.
  unfold mean. rewrite decide_False by done. f_equal.
  rewrite sum_replicate. unfold len. rewrite length_replicate, <- INR_IZR_INZ.
  field. pose proof (pos_INR n). rewrite S_INR. lra.
Qed.

(** C1.  With the default [phrase_limit = 20], a stream of 22 key phrases of
    equal rank (none a verb, none below the mean) makes [limit_keyphrases]
    yield 21 texts: the test [used > phrase_limit] stops the loop one
    phrase late.  With [phrase_limit = 0] one text is yielded. *)
Theorem limit_keyphrases_yields_one_more :
  limit_keyphrases (replicate 22 keyword) 20 = (replicate 21 "keyword", None)
  ∧ length (limit_keyphrases (replicate 22 keyword) 20).1 = 21%nat
  ∧ limit_keyphrases [keyword] 0 = (["keyword"], None).
Proof.
  assert (∀ n limit, limit_keyphrases (replicate (S n) keyword) limit
                     = (replicate (S n `min` Z.to_nat (limit + 1)) "keyword", None)) as H.
  { intros n limit. unfold limit_keyphrases.
    rewrite fmap_replicate, mean_replicate.
    rewrite (limit_keyphrases_loop_replicate _ _ _ "n"); [|done|done|simpl; lra].
    do 3 f_equal. lia. }
  split; [|split].
  - apply (H 21%nat).
  - rewrite (H 21%nat). reflexivity.
  - apply (H 0%nat).
Qed.

Lemma limit_sentences_loop_total word_limit json_iter : ∀ word_count,
  word_count ≤ word_limit →
  word_count + total_words (limit_sentences_loop word_limit word_count json_iter)
  ≤ word_limit.
Proof.
  induction json_iter as [|p rest IH]; intros word_count Hle; simpl; [lia|].
  case_decide; simpl; [lia|].
  specialize (IH (word_count + len (split " " (SummarySent.text p)))). lia.
Qed.

Lemma limit_sentences_loop_prefix word_limit json_iter : ∀ word_count,
  ∃ n : nat,
    limit_sentences_loop word_limit word_count json_iter = sentence_item <$> take n json_iter
    ∧ ∀ p, json_iter !! n = Some p →
           word_limit < word_count
                        + total_words (limit_sentences_loop word_limit word_count json_iter)
                        + len (split " " (SummarySent.text p)).
Proof.
  induction json_iter as [|p rest IH]; intros word_count.
  - exists 0%nat. split; [done|]. intros p Hp. done.
  - simpl. case_decide as Hcut.
    + exists 0%nat. split; [done|]. intros p' [= <-]. simpl. lia.
    + destruct (IH (word_count + len (split " " (SummarySent.text p)))) as (n & Hn & Hstop).
      exists (S n). split; [simpl; by rewrite Hn|].
      intros p' Hp'. simpl in Hp'. specialize (Hstop p' Hp'). simpl. lia.
Qed.

(** C7.  For a word budget [word_limit >= 0], the sentences yielded by
    [limit_sentences] hold at most [word_limit] words in total, they are the
    first [n] sentences of the stream for some [n], and the sentence after
    them, if there is one, is the first whose words would exceed the
    budget. *)
Theorem limit_sentences_budget (json_iter : list SummarySent) (word_limit : Z) :
  0 ≤ word_limit →
  total_words (limit_sentences json_iter word_limit) ≤ word_limit
  ∧ ∃ n : nat,
      limit_sentences json_iter word_limit = sentence_item <$> take n json_iter
      ∧ ∀ p, json_iter !! n = Some p →
             word_limit < total_words (limit_sentences json_iter word_limit)
                          + len (split " " (SummarySent.text p)).
Proof.
  intros Hlimit. unfold limit_sentences. split.
  - pose proof (limit_sentences_loop_total word_limit json_iter 0 Hlimit). lia.
  - destruct (limit_sentences_loop_prefix word_limit json_iter 0) as (n & Hn & Hstop).
    exists n. split; [done|]. intros p Hp. specialize (Hstop p Hp). lia.
Qed.

(** A budget of 8 words takes the first sentence (4 words), stops at the
    second (5 more), and does not go on to the third although it would fit. *)
Lemma limit_sentences_budget_witness :
  limit_sentences summary 8 = [(["the"; "quick"; "brown"; "fox"], 2)]
  ∧ total_words (limit_sentences summary 8) ≤ 8.
Proof.
  split; [reflexivity|].
  exact (proj1 (limit_sentences_budget summary 8 ltac:(lia))).
Defined.

(** ** Parsing: properties *)

Lemma loop_app {A B} (body : A → B → A * option exn) a l1 l2 :
  loop body a (l1 ++ l2) =
  match loop body a l1 with
  | (a', None) => loop body a' l2
  | (a', Some e) => (a', Some e)
  end.
Proof.
  revert a. induction l1 as [|x l1 IH]; intros a; simpl.
  - by destruct (loop body a l2) as [a' [e|]].
  - destruct (body a x) as [a' [e|]]; [done | apply IH].
Qed.

(** A loop extends the registry held in its state when every turn of its
    body does, whether the turn ends normally or raises. *)
Lemma loop_extends {A B} (body : A → B → A * option exn) (reg : A → gmap string Z) :
  (∀ a x, reg a ⊆ reg (body a x).1) → ∀ l a, reg a ⊆ reg (loop body a l).1.
Proof.
  intros Hbody l. induction l as [|x l IH]; intros a; simpl; [done|].
  specialize (Hbody a x). destruct (body a x) as [a' [e|]]; simpl in *; [done|].
  by etransitivity.
Qed.

(** [get_word_id] never changes an entry of the registry. *)
Lemma get_word_id_extends root UNIQ_WORDS :
  UNIQ_WORDS ⊆ (get_word_id root UNIQ_WORDS).2.
Proof.
  unfold get_word_id. destruct (UNIQ_WORDS !! root) eqn:E; simpl; [done|].
  by apply insert_subseteq.
Qed.

Section parsing_properties.
Variable sentences : string → list Sentence.
Variable tag : string → list (string * string).
Variable lemmatize : string → string → string.
Variable hexdigest : list string → string.

Lemma parse_word_extends sent st pos_tag st' :
  parse_word lemmatize sent st pos_tag = Ok st' → uniq_words st ⊆ uniq_words st'.
Proof.
  unfold parse_word. intros H.
  destruct (_ : result (WordNode * option string * option string * Z))
    as [[[[word pr] pf] ri]|e]; simpl in H; [|done].
  destruct pr as [pr|], pf as [pf|]; try done.
  destruct (bool_decide (pf ∈ POS_KEEPS)).
  - pose proof (get_word_id_extends
      (if bool_decide (pf ∈ POS_LEMMA) then lower (lemmatize pr pf)
       else if bool_decide (pf ≠ ".") then lower pr else pr) (uniq_words st)) as Hext.
    destruct (get_word_id _ _) as [i u]. injection H as <-. exact Hext.
  - injection H as <-. done.
Qed.

Lemma parse_sentence_extends doc_id st sent :
  uniq_words st ⊆ uniq_words (parse_sentence tag lemmatize hexdigest doc_id st sent).1.
Proof.
  unfold parse_sentence.
  set (body := λ st pos_tag, match parse_word lemmatize sent st pos_tag with
                             | Ok st' => (st', None)
                             | Raise e => (st, Some e)
                             end).
  set (st0 := mkParseState _ _ _ _ _ _ _ _).
  pose proof (loop_extends body uniq_words) as Hloop.
  assert (uniq_words st0 ⊆ uniq_words (loop body st0 (tag (sent_str sent))).1) as H.
  { apply Hloop. intros a x. unfold body.
    destruct (parse_word lemmatize sent a x) eqn:E; simpl; [|done].
    by eapply parse_word_extends. }
  destruct (loop body st0 (tag (sent_str sent))) as [st1 [e|]]; exact H.
Qed.

Lemma parse_graf_extends doc_id graf_text base_idx UNIQ_WORDS :
  UNIQ_WORDS ⊆ (parse_graf sentences tag lemmatize hexdigest doc_id graf_text base_idx
                  UNIQ_WORDS).2.
Proof.
  unfold parse_graf.
  pose proof (loop_extends (parse_sentence tag lemmatize hexdigest doc_id)
                uniq_words (parse_sentence_extends doc_id) (sentences graf_text)
                (mkParseState None None 0 base_idx [] [] [] UNIQ_WORDS)) as H.
  destruct (loop _ _ _) as [st err]. exact H.
Qed.

Lemma parse_doc_graf_extends meta st graf_text :
  st.2 ⊆ (parse_doc_graf sentences tag lemmatize hexdigest meta st graf_text).1.2.
Proof.
  destruct st as [[out base_idx] UNIQ_WORDS]. unfold parse_doc_graf.
  destruct (doc_id meta) as [i|]; [|done].
  pose proof (parse_graf_extends i graf_text base_idx UNIQ_WORDS) as H.
  destruct (parse_graf _ _ _ _ _ _ _ _) as [[[grafs nbi]|e] U]; exact H.
Qed.

Lemma parse_doc_meta_extends st meta :
  st.2 ⊆ (parse_doc_meta sentences tag lemmatize hexdigest st meta).1.2.
Proof.
  destruct st as [out UNIQ_WORDS]. unfold parse_doc_meta.
  destruct (doc_text meta) as [text|]; [|done].
  pose proof (loop_extends (parse_doc_graf sentences tag lemmatize hexdigest meta)
                snd (parse_doc_graf_extends meta)
                (filter_quotes text) (out, 0, UNIQ_WORDS)) as H.
  destruct (loop _ _ _) as [[[out' b'] U'] err]. exact H.
Qed.

(** Whatever [parse_doc] does, every entry of the registry keeps its
    identifier. *)
Lemma parse_doc_extends json_iter UNIQ_WORDS :
  UNIQ_WORDS ⊆ (parse_doc sentences tag lemmatize hexdigest json_iter UNIQ_WORDS).2.
Proof.
  unfold parse_doc.
  pose proof (loop_extends (parse_doc_meta sentences tag lemmatize hexdigest)
                snd parse_doc_meta_extends json_iter ([], UNIQ_WORDS)) as H.
  destruct (loop _ _ _) as [[out U] err]. exact H.
Qed.

(** A record without "text", or without "id" when its text has a
    paragraph, raises KeyError before anything of it is parsed. *)
Lemma parse_doc_meta_malformed st meta :
  doc_text meta = None
  ∨ (doc_id meta = None ∧ ∃ text, doc_text meta = Some text ∧ filter_quotes text ≠ []) →
  parse_doc_meta sentences tag lemmatize hexdigest st meta = (st, Some KeyError).
Proof.
  destruct st as [out UNIQ_WORDS]. unfold parse_doc_meta.
  intros [->|(Hid & text & -> & Hgrafs)]; [done|].
  destruct (filter_quotes text) as [|graf_text grafs]; [done|].
  simpl. by rewrite Hid.
Qed.

(** C9, as it holds of the code.  A record that lacks its text, or lacks
    its identifier while its text has a paragraph, makes [parse_doc] raise
    KeyError at that record.  The sentences yielded for the records before
    it and the registry they left are what they were, and every entry of
    the initial registry keeps its identifier; the exception ends the
    generator, so no record after the malformed one is parsed. *)
Theorem parse_doc_malformed (json_iter rest : list Doc) (meta : Doc)
    (UNIQ_WORDS UNIQ_WORDS' : gmap string Z) (out : list ParsedGraf) :
  parse_doc sentences tag lemmatize hexdigest json_iter UNIQ_WORDS
    = ((out, None), UNIQ_WORDS') →
  doc_text meta = None
  ∨ (doc_id meta = None ∧ ∃ text, doc_text meta = Some text ∧ filter_quotes text ≠ []) →
  parse_doc sentences tag lemmatize hexdigest (json_iter ++ meta :: rest) UNIQ_WORDS
    = ((out, Some KeyError), UNIQ_WORDS')
  ∧ UNIQ_WORDS ⊆ UNIQ_WORDS'.
Proof.
  intros Hdocs Hbad. split.
  - unfold parse_doc in *. rewrite loop_app.
    destruct (loop _ _ json_iter) as [[out0 U0] [e|]]; [done|].
    injection Hdocs as -> ->. cbn [loop].
    by rewrite (parse_doc_meta_malformed _ _ Hbad).
  - pose proof (parse_doc_extends json_iter UNIQ_WORDS) as H.
    by rewrite Hdocs in H.
Qed.
End parsing_properties.

Lemma parse_doc_malformed_witness :
  parse_doc toy_sentences toy_tag toy_lemmatize toy_hexdigest
    [good_doc; no_text_doc; good_doc] UNIQ_WORDS_init
  = (([mkParsedGraf "d2" "dog" [mkWordNode 1 "dog" "dog" "NN" 1 0]], Some KeyError),
     <["dog" := 1]> UNIQ_WORDS_init).
Proof.
  refine (proj1 (parse_doc_malformed toy_sentences toy_tag toy_lemmatize toy_hexdigest
                   [good_doc] [good_doc] no_text_doc UNIQ_WORDS_init
                   (<["dog" := 1]> UNIQ_WORDS_init)
                   [mkParsedGraf "d2" "dog" [mkWordNode 1 "dog" "dog" "NN" 1 0]] _ _)).
  - vm_compute. reflexivity.
  - left. reflexivity.
Defined.

(** A record without "text" ends the generator: the well-formed record
    after it, which alone yields a sentence, is never parsed.  A record
    without "id" whose text has no paragraph raises nothing. *)
Lemma parse_doc_stops_at_malformed :
  (parse_doc toy_sentences toy_tag toy_lemmatize toy_hexdigest [good_doc] UNIQ_WORDS_init).1
    = ([mkParsedGraf "d2" "dog" [mkWordNode 1 "dog" "dog" "NN" 1 0]], None)
  ∧ parse_doc toy_sentences toy_tag toy_lemmatize toy_hexdigest
      [no_text_doc; good_doc] UNIQ_WORDS_init
    = (([], Some KeyError), UNIQ_WORDS_init)
  ∧ parse_doc toy_sentences toy_tag toy_lemmatize toy_hexdigest
      [no_id_empty_doc] UNIQ_WORDS_init
    = (([], None), UNIQ_WORDS_init).
Proof. repeat split; vm_compute; reflexivity. Qed.

(** ** Python runtime: properties *)

Lemma str_app_nil_r s : s +:+ "" = s.
Proof. induction s as [|c s IH]; [done|]. change (String c (s +:+ "") = String c s). by rewrite IH. Qed.

Lemma str_app_assoc s t u : (s +:+ t) +:+ u = s +:+ t +:+ u.
Proof.
  induction s as [|c s IH]; [done|].
  change (String c ((s +:+ t) +:+ u) = String c (s +:+ t +:+ u)). by rewrite IH.
Qed.

Lemma join_empty_cons x l : join "" (x :: l) = x +:+ join "" l.
Proof.
  unfold join. destruct l as [|y l]; [by rewrite str_app_nil_r|]. reflexivity.
Qed.

Lemma join_empty_app l1 l2 : join "" (l1 ++ l2) = join "" l1 +:+ join "" l2.
Proof.
  induction l1 as [|x l1 IH]; [done|].
  change ((x :: l1) ++ l2) with (x :: (l1 ++ l2)).
  by rewrite !join_empty_cons, IH, str_app_assoc.
Qed.

Lemma join_split sep s : join (String sep "") (split sep s) = s.
Proof.
  unfold join. induction s as [|c s IH]; [done|].
  simpl split. destruct (Ascii.eqb_spec c sep) as [->|Hne].
  - destruct (split sep s) as [|w ws] eqn:E; [by destruct s; simpl in E; try destruct (Ascii.eqb _ _), (split _ _)|].
    change (String.concat (String sep "") ("" :: w :: ws))
      with ("" +:+ String sep "" +:+ String.concat (String sep "") (w :: ws)).
    by rewrite IH.
  - destruct (split sep s) as [|w ws] eqn:E.
    + simpl in IH. by subst s.
    + destruct ws as [|w' ws].
      * simpl in *. by rewrite IH.
      * change (String.concat (String sep "") (String c w :: w' :: ws))
          with (String c (w +:+ String sep "" +:+ String.concat (String sep "") (w' :: ws))).
        f_equal. exact IH.
Qed.

Lemma split_nonempty sep s : split sep s ≠ [].
Proof.
  induction s as [|c s IH]; simpl; [done|].
  destruct (Ascii.eqb c sep); [done|]. by destruct (split sep s).
Qed.

Lemma len_split_pos sep s : 1 ≤ len (split sep s).
Proof.
  pose proof (split_nonempty sep s). unfold len.
  destruct (split sep s); [done | simpl; lia].
Qed.

Lemma split_free sep s : free_of sep s = true → split sep s = [s].
Proof.
  unfold free_of. induction s as [|c s IH]; [done|]. simpl.
  intros [Hc Hs]%andb_true_iff. apply negb_true_iff in Hc. rewrite Hc.
  by rewrite (IH Hs).
Qed.

Lemma split_app_sep sep s t :
  free_of sep s = true → split sep (s +:+ String sep t) = s :: split sep t.
Proof.
  unfold free_of. induction s as [|c s IH]; simpl.
  - intros _. change ("" +:+ String sep t) with (String sep t). simpl.
    by rewrite Ascii.eqb_refl.
  - intros [Hc Hs]%andb_true_iff. apply negb_true_iff in Hc.
    change (String c s +:+ String sep t) with (String c (s +:+ String sep t)).
    simpl. rewrite Hc. by rewrite (IH Hs).
Qed.

Lemma split_join sep (ws : list string) :
  ws ≠ [] → Forall (λ w, free_of sep w = true) ws →
  split sep (join (String sep "") ws) = ws.
Proof.
  induction ws as [|w ws IH]; [done|]. intros _ [Hw Hws]%Forall_cons.
  destruct ws as [|w' ws].
  - simpl. by apply split_free.
  - change (join (String sep "") (w :: w' :: ws))
      with (w +:+ String sep "" +:+ join (String sep "") (w' :: ws)).
    change (String sep "" +:+ join (String sep "") (w' :: ws))
      with (String sep (join (String sep "") (w' :: ws))).
    rewrite split_app_sep by done. f_equal. by apply IH.
Qed.

Lemma getitem_nonneg {A} (l : list A) (i : Z) x :
  0 ≤ i → getitem l i = Ok x ↔ l !! Z.to_nat i = Some x.
Proof.
  intros Hi. unfold getitem. destruct (decide (i < 0)) as [|_]; [lia|].
  destruct (decide (i < 0)) as [|_]; [lia|].
  destruct (l !! Z.to_nat i); split; congruence.
Qed.

Lemma insert_desc_by_Permutation {A} (key : A → R) x l : insert_desc_by key x l ≡ₚ x :: l.
Proof.
  induction l as [|y l IH]; simpl; [done|].
  case_decide; [|done]. rewrite IH. apply Permutation_swap.
Qed.

Lemma sorted_desc_by_Permutation {A} (key : A → R) l : sorted_desc_by key l ≡ₚ l.
Proof.
  induction l as [|x l IH]; simpl; [done|].
  rewrite insert_desc_by_Permutation. by constructor.
Qed.

Lemma insert_desc_by_descending {A} (key : A → R) x l :
  descending key l → descending key (insert_desc_by key x l).
Proof.
  unfold descending. induction 1 as [|y l Hl IH Hy]; simpl.
  - repeat constructor.
  - case_decide as Hlt.
    + constructor; [done|].
      rewrite insert_desc_by_Permutation. constructor; [lra | done].
    + constructor; [by constructor|].
      constructor; [lra|]. eapply Forall_impl; [exact Hy|]. simpl. intros z Hz. lra.
Qed.

Lemma sorted_desc_by_descending {A} (key : A → R) l : descending key (sorted_desc_by key l).
Proof.
  induction l as [|x l IH]; simpl; [constructor|]. by apply insert_desc_by_descending.
Qed.

Lemma elem_of_dict_set_keys {K V} `{EqDecision K} (k k' : K) (v : V) (d : pydict K V) :
  k' ∈ (dict_set k v d).*1 ↔ k' = k ∨ k' ∈ d.*1.
Proof.
  induction d as [|[k2 v2] d IH]; simpl.
  - rewrite list_elem_of_singleton, elem_of_nil. tauto.
  - case_decide as Hk; simpl; rewrite !elem_of_cons.
    + subst k2. tauto.
    + rewrite IH. tauto.
Qed.

Lemma dict_set_keys_NoDup {K V} `{EqDecision K} (k : K) (v : V) (d : pydict K V) :
  NoDup d.*1 → NoDup (dict_set k v d).*1.
Proof.
  induction d as [|[k' v'] d IH]; simpl; intros Hd.
  - repeat constructor. apply not_elem_of_nil.
  - apply NoDup_cons in Hd as [Hk' Hd]. case_decide as Hk; simpl.
    + subst k'. by constructor.
    + constructor; [|by apply IH].
      rewrite elem_of_dict_set_keys. intros [?|?]; [congruence | done].
Qed.

Lemma dict_get_set_ne {K V} `{EqDecision K} (k k' : K) (v : V) (d : pydict K V) :
  k ≠ k' → dict_get k' (dict_set k v d) = dict_get k' d.
Proof.
  intros Hne. induction d as [|[k2 v2] d IH]; simpl.
  - by rewrite decide_False.
  - destruct (decide (k2 = k)) as [->|Hk]; simpl.
    + by rewrite !decide_False.
    + destruct (decide (k2 = k')); [done | exact IH].
Qed.

Lemma dict_get_elem_of {K V} `{EqDecision K} (k : K) (v : V) (d : pydict K V) :
  NoDup d.*1 → (k, v) ∈ d ↔ dict_get k d = Some v.
Proof.
  induction d as [|[k' v'] d IH]; simpl; intros Hd.
  - split; [by intros ?%elem_of_nil | done].
  - apply NoDup_cons in Hd as [Hk' Hd]. rewrite elem_of_cons, (IH Hd).
    destruct (decide (k' = k)) as [->|Hne].
    + split; [|intros [= ->]; by left].
      intros [[= ->]|Hget]; [done|].
      exfalso. apply Hk'. apply (IH Hd) in Hget.
      apply list_elem_of_fmap. by exists (k, v).
    + split; [intros [[= -> ->]|?]; done | by right].
Qed.

Lemma dict_set_Forall {K V} `{EqDecision K} (P : K * V → Prop) (k : K) v (d : pydict K V) :
  Forall P d → P (k, v) → Forall P (dict_set k v d).
Proof.
  induction d as [|[k' v'] d IH]; simpl; intros Hd Hv.
  - by constructor.
  - apply Forall_cons in Hd as [Hv' Hd]. case_decide; simpl; constructor; auto.
Qed.

Lemma descending_fmap {A B} (key : A → R) (key' : B → R) (f : A → B) l :
  (∀ a b, key b <= key a → key' (f b) <= key' (f a))%R →
  descending key l → descending key' (f <$> l).
Proof.
  intros Hf. unfold descending. induction 1 as [|x l Hl IH Hx]; simpl; constructor.
  - exact IH.
  - apply Forall_fmap. eapply Forall_impl; [exact Hx|]. intros b. apply Hf.
Qed.

(** ** Graph analytics: further properties *)

Lemma add_pair_nodes g pair : nodes (add_pair g pair) = {[ pair.1; pair.2 ]} ∪ nodes g.
Proof.
  destruct pair as [u v]. unfold add_pair, has_node, add_node, add_edge. simpl.
  repeat case_bool_decide; destruct (edge _ !! (u, v)); simpl; set_solver.
Qed.

Lemma foldl_add_pair_nodes pairs g :
  nodes (foldl add_pair g pairs) = list_to_set (endpoints pairs) ∪ nodes g.
Proof.
  revert g. induction pairs as [|p pairs IH]; intros g.
  - simpl. set_solver.
  - simpl foldl. rewrite IH, add_pair_nodes. unfold endpoints. rewrite bind_cons.
    simpl. set_solver.
Qed.

(** X1.  The nodes of the graph are exactly the words of the pairs
    [get_tiles] yields over the corpus: a kept word that never falls into a
    window with another kept word is not a node. *)
Theorem build_graph_nodes (json_iter : list ParsedGraf) (word : string) :
  word ∈ nodes (build_graph json_iter)
  ↔ ∃ pair, pair ∈ all_tiles json_iter ∧ (word = pair.1 ∨ word = pair.2).
Proof.
  rewrite build_graph_all_tiles, foldl_add_pair_nodes. unfold endpoints.
  simpl. rewrite elem_of_union, elem_of_list_to_set, list_elem_of_bind. split.
  - intros [(pair & Hw & Hp)|H]; [|set_solver].
    exists pair. split; [done|]. set_solver.
  - intros (pair & Hp & Hw). left. exists pair. split; [|done]. set_solver.
Qed.

(** X2.  The weight of an edge is the number of times its pair was
    yielded, as a float; a pair that was never yielded has no edge. *)
Theorem build_graph_weight (json_iter : list ParsedGraf) (pair : string * string) :
  edge (build_graph json_iter) !! pair
  = if decide (pair ∈ all_tiles json_iter)
    then Some (INR (occurrences pair (all_tiles json_iter)))
    else None.
Proof.
  rewrite build_graph_edge. case_decide as Hin.
  - apply elem_of_occurrences in Hin. destruct (occurrences _ _); [lia | done].
  - destruct (occurrences _ _) eqn:E; [done|].
    exfalso. apply Hin, elem_of_occurrences. lia.
Qed.

Lemma occurrences_Permutation pair pairs pairs' :
  pairs ≡ₚ pairs' → occurrences pair pairs = occurrences pair pairs'.
Proof. intros H. unfold occurrences. by rewrite H. Qed.

Lemma all_tiles_Permutation json_iter json_iter' :
  json_iter ≡ₚ json_iter' → all_tiles json_iter ≡ₚ all_tiles json_iter'.
Proof. intros H. unfold all_tiles. by rewrite H. Qed.

Lemma DiGraph_eq g g' : nodes g = nodes g' → edge g = edge g' → g = g'.
Proof. destruct g, g'. simpl. by intros -> ->. Qed.

(** X3.  The graph does not depend on the order of the sentences of the
    corpus. *)
Theorem build_graph_order (json_iter json_iter' : list ParsedGraf) :
  json_iter ≡ₚ json_iter' → build_graph json_iter = build_graph json_iter'.
Proof.
  intros H. pose proof (all_tiles_Permutation _ _ H) as Ht. apply DiGraph_eq.
  - rewrite !build_graph_all_tiles, !foldl_add_pair_nodes. unfold endpoints.
    f_equal. apply set_eq. intros x. rewrite !elem_of_list_to_set. by rewrite Ht.
  - apply map_eq. intros pair. rewrite !build_graph_edge.
    by rewrite (occurrences_Permutation _ _ _ Ht).
Qed.

Lemma build_graph_order_witness :
  build_graph [open_sentence; dog_bites_dog] = build_graph [dog_bites_dog; open_sentence].
Proof. apply build_graph_order. apply Permutation_swap. Defined.

Lemma length_bind_le {A B} (f : A → list B) (k : nat) (l : list A) :
  (∀ x, length (f x) ≤ k)%nat → (length (l ≫= f) ≤ length l * k)%nat.
Proof.
  intros Hf. induction l as [|x l IH]; [simpl; lia|].
  rewrite bind_cons, length_app. specialize (Hf x). simpl. lia.
Qed.

Lemma length_py_range lo hi : length (py_range lo hi) = Z.to_nat (hi - lo).
Proof. unfold py_range. apply length_seqZ. Qed.

(** X4.  A sentence with [k] kept tokens yields at most
    [(k - 1) * size] pairs. *)
Theorem get_tiles_length (graf : list WordNode) (size : Z) :
  (length (get_tiles graf size)
   ≤ (length (filter (λ w, (0 < word_id w)%Z) graf) - 1) * Z.to_nat size)%nat.
Proof.
  unfold get_tiles. cbv zeta.
  set (keeps := filter (λ w, 0 < word_id w) graf).
  etransitivity; [apply (length_bind_le _ (Z.to_nat size))|].
  - intros i. destruct (keeps !! Z.to_nat i) as [w0|]; simpl; [|lia].
    rewrite app_nil_r.
    etransitivity; [apply (length_bind_le _ 1%nat)|].
    + intros j. destruct (keeps !! Z.to_nat j) as [w1|]; simpl; [|lia].
      case_decide; simpl; lia.
    + rewrite length_py_range. unfold len. lia.
  - rewrite length_py_range. unfold len. apply Nat.mul_le_mono_r. lia.
Qed.

(** ** Key phrases: further properties *)

Lemma find_chunk_sub_loop_Some phrase np i js c :
  0 ≤ i → Forall (λ j, 0 ≤ j) js →
  find_chunk_sub_loop phrase np i js = Ok (Some c) →
  c = slice phrase i (i + len np)
  ∧ Forall (λ j, ∃ p, phrase !! Z.to_nat (i + j) = Some p
                      ∧ np !! Z.to_nat j = Some (RankedLexeme.text p)) js.
Proof.
  intros Hi Hjs. induction Hjs as [|j js Hj Hjs IH]; simpl.
  - intros [= <-]. split; [done | constructor].
  - destruct (getitem phrase (i + j)) as [p|] eqn:Hp; simpl; [|done].
    destruct (getitem np j) as [npj|] eqn:Hn; simpl; [|done].
    case_decide as Hne; [done|]. intros H.
    destruct (IH H) as [-> Hall]. split; [done|]. constructor; [|done].
    exists p. apply getitem_nonneg in Hp; [|lia]. apply getitem_nonneg in Hn; [|lia].
    by rewrite Hne.
Qed.

Lemma find_chunk_sub_loop_None phrase np i js :
  0 ≤ i → Forall (λ j, 0 ≤ j) js →
  find_chunk_sub_loop phrase np i js = Ok None →
  ∃ j p w, j ∈ js ∧ phrase !! Z.to_nat (i + j) = Some p ∧ np !! Z.to_nat j = Some w
           ∧ RankedLexeme.text p ≠ w.
Proof.
  intros Hi Hjs. induction Hjs as [|j js Hj Hjs IH]; simpl; [done|].
  destruct (getitem phrase (i + j)) as [p|] eqn:Hp; simpl; [|done].
  destruct (getitem np j) as [npj|] eqn:Hn; simpl; [|done].
  case_decide as Hne.
  - intros _. exists j, p, npj. apply getitem_nonneg in Hp; [|lia].
    apply getitem_nonneg in Hn; [|lia]. split; [by left | done].
  - intros H. destruct (IH H) as (j' & p' & w' & Hin & H').
    exists j', p', w'. split; [by right | done].
Qed.

Lemma py_range_nonneg lo hi : 0 ≤ lo → Forall (λ j, 0 ≤ j) (py_range lo hi).
Proof. intros. apply Forall_forall. intros j Hj%elem_of_py_range. lia. Qed.

Lemma find_chunk_sub_aligned phrase np (i : nat) c :
  find_chunk_sub phrase np (Z.of_nat i) = Ok (Some c) →
  c = take (length np) (drop i phrase) ∧ (c ≠ [] → aligned_at phrase np i).
Proof.
  unfold find_chunk_sub. intros H.
  apply find_chunk_sub_loop_Some in H as [-> Hall]; [|lia|by apply py_range_nonneg].
  assert (slice phrase (Z.of_nat i) (Z.of_nat i + len np) = take (length np) (drop i phrase)) as Hslice.
  { unfold slice, len. f_equal; [lia|]. by rewrite Nat2Z.id. }
  rewrite Hslice. split; [done|]. intros Hne. unfold aligned_at.
  rewrite Forall_forall in Hall.
  assert (∀ k, (k < length np)%nat →
            ∃ p, phrase !! (i + k)%nat = Some p ∧ np !! k = Some (RankedLexeme.text p)) as Hk.
  { intros k Hlt. destruct (Hall (Z.of_nat k)) as (p & Hp & Hn).
    - apply elem_of_py_range. unfold len. lia.
    - exists p. rewrite Nat2Z.id in Hn. split; [|done].
      replace (Z.to_nat (Z.of_nat i + Z.of_nat k)) with (i + k)%nat in Hp by lia. done. }
  apply list_eq. intros k. rewrite list_lookup_fmap.
  destruct (decide (k < length np)%nat) as [Hlt|Hge].
  - rewrite lookup_take_lt, lookup_drop by done.
    destruct (Hk k Hlt) as (p & -> & ->). done.
  - rewrite lookup_take_ge by lia. simpl. symmetry. apply lookup_ge_None. lia.
Qed.

Lemma find_chunk_sub_not_aligned phrase np (i : nat) :
  find_chunk_sub phrase np (Z.of_nat i) = Ok None → ¬ aligned_at phrase np i.
Proof.
  unfold find_chunk_sub. intros H.
  apply find_chunk_sub_loop_None in H as (j & p & w & Hj & Hp & Hw & Hne);
    [|lia|by apply py_range_nonneg].
  apply elem_of_py_range in Hj. unfold len in Hj.
  unfold aligned_at. intros Heq.
  assert ((RankedLexeme.text <$> take (length np) (drop i phrase)) !! Z.to_nat j
          = Some (RankedLexeme.text p)) as Hl.
  { rewrite list_lookup_fmap, lookup_take_lt, lookup_drop by lia.
    replace (i + Z.to_nat j)%nat with (Z.to_nat (Z.of_nat i + j)) by lia. by rewrite Hp. }
  rewrite Heq, Hw in Hl. congruence.
Qed.

Lemma find_chunk_loop_first phrase np c : ∀ (n k : nat),
  find_chunk_loop phrase np (py_range (Z.of_nat k) (Z.of_nat (k + n))) = Ok (Some c) →
  ∃ i : nat, (k ≤ i < k + n)%nat
    ∧ c = take (length np) (drop i phrase) ∧ c ≠ [] ∧ aligned_at phrase np i
    ∧ ∀ i' : nat, (k ≤ i' < i)%nat → ¬ aligned_at phrase np i'.
Proof.
  induction n as [|n IH]; intros k.
  - unfold py_range. replace (Z.of_nat (k + 0)%nat - Z.of_nat k) with 0 by lia. done.
  - unfold py_range. replace (Z.of_nat (k + S n)%nat - Z.of_nat k) with (Z.succ (Z.of_nat n)) by lia.
    rewrite seqZ_cons by lia. cbn [find_chunk_loop].
    destruct (find_chunk_sub phrase np (Z.of_nat k)) as [parsed_np|] eqn:Hsub; simpl; [|done].
    destruct (truthy parsed_np) eqn:Htruthy.
    + intros [= ->]. apply find_chunk_sub_aligned in Hsub as [Hc Hal].
      assert (c ≠ []) as Hne by (by destruct c).
      exists k. split; [lia|]. split; [done|]. split; [done|]. split; [by apply Hal|]. lia.
    + replace (Z.pred (Z.succ (Z.of_nat n))) with (Z.of_nat (S k + n)%nat - Z.of_nat (S k)) by lia.
      replace (Z.succ (Z.of_nat k)) with (Z.of_nat (S k)) by lia.
      intros H. apply IH in H as (i & Hi & Hc & Hne & Hal & Hfirst).
      exists i. split; [lia|]. split; [done|]. split; [done|]. split; [done|].
      intros i' Hi'. destruct (decide (i' = k)) as [->|]; [|apply Hfirst; lia].
      destruct parsed_np as [[|p ps]|]; [|done|].
      * apply find_chunk_sub_aligned in Hsub as [Hnil _].
        intros Hk. unfold aligned_at in Hk. rewrite <- Hnil in Hk. simpl in Hk.
        rewrite <- Hk in Hc. simpl in Hc. by subst c.
      * by apply find_chunk_sub_not_aligned.
Qed.

Lemma find_chunk_aligned phrase np c :
  find_chunk phrase np = Ok (Some c) →
  ∃ i : nat, (i < length phrase)%nat
    ∧ c = take (length np) (drop i phrase)
    ∧ c ≠ []
    ∧ RankedLexeme.text <$> c = np
    ∧ ∀ i' : nat, (i' < i)%nat → ¬ aligned_at phrase np i'.
Proof.
  unfold find_chunk, len. intros H.
  pose proof (find_chunk_loop_first phrase np c (length phrase) 0) as Hf.
  simpl in Hf. apply Hf in H as (i & Hi & Hc & Hne & Hal & Hfirst).
  exists i. split; [lia|]. split; [done|]. split; [done|]. split.
  - by rewrite Hc.
  - intros i' Hi'. apply Hfirst. lia.
Qed.

(** X5.  A chunk returned by [find_chunk] is the slice of the phrase at
    the first position where the words of the phrase read [np]: it is not
    empty, its words are exactly [np], and no earlier position aligns. *)
Theorem find_chunk_first_alignment (phrase : list RankedLexeme) (np : list string)
    (c : list RankedLexeme) :
  find_chunk phrase np = Ok (Some c) →
  ∃ i : nat, (i < length phrase)%nat
    ∧ c = take (length np) (drop i phrase)
    ∧ c ≠ []
    ∧ RankedLexeme.text <$> c = np
    ∧ ∀ i' : nat, (i' < i)%nat → ¬ aligned_at phrase np i'.
Proof. apply find_chunk_aligned. Qed.

Lemma find_chunk_first_alignment_witness :
  ∃ i : nat, (i < length big_dog_phrase)%nat
    ∧ [lexeme_of dog (4/10)] = take (length ["dog"]) (drop i big_dog_phrase)
    ∧ [lexeme_of dog (4/10)] ≠ []
    ∧ RankedLexeme.text <$> [lexeme_of dog (4/10)] = ["dog"]
    ∧ ∀ i' : nat, (i' < i)%nat → ¬ aligned_at big_dog_phrase ["dog"] i'.
Proof. apply find_chunk_first_alignment. vm_compute. reflexivity. Defined.

Section chunks_properties.
Variable noun_phrases : string → list string.

Lemma collect_chunks_loop_sound phrase text nps np c :
  (np, Some c) ∈ (collect_chunks_loop phrase text nps).1.1 →
  c ≠ [] ∧ (∃ i : nat, c = take (length c) (drop i phrase))
  ∧ join " " (RankedLexeme.text <$> c) = np.
Proof.
  induction nps as [|np' nps IH]; simpl; [by intros ?%elem_of_nil|].
  case_decide; [|exact IH].
  destruct (find_chunk phrase (split " " np')) as [chunk|e] eqn:E; simpl;
    [|by intros ?%elem_of_nil].
  intros [[= <- <-]|Hin]%elem_of_cons; [|by apply IH].
  apply find_chunk_aligned in E as (i & _ & Hc & Hne & Htext & _).
  split; [done|]. split.
  - exists i. rewrite <- (length_fmap RankedLexeme.text c), Htext. exact Hc.
  - rewrite Htext. apply (join_split " ").
Qed.

(** X6.  Every chunk [collect_chunks] yields with lexemes is a non-empty
    contiguous part of the phrase, and the text it is yielded under is the
    words of its lexemes joined by spaces. *)
Theorem collect_chunks_sound (phrase : list RankedLexeme) (text : string)
    (c : list RankedLexeme) :
  (text, Some c) ∈ (collect_chunks noun_phrases phrase).1 →
  c ≠ [] ∧ (∃ i : nat, c = take (length c) (drop i phrase))
  ∧ join " " (RankedLexeme.text <$> c) = text.
Proof.
  unfold collect_chunks. case_decide as Hlen; [|by intros ?%elem_of_nil].
  cbv zeta.
  pose proof (collect_chunks_loop_sound phrase
                (join " " (RankedLexeme.text <$> phrase))
                (noun_phrases (join " " (RankedLexeme.text <$> phrase))) text c) as Hloop.
  destruct (collect_chunks_loop _ _ _) as [[ys st] found]. simpl in *.
  destruct st; [done|]. destruct found; simpl; [done|].
  destruct (all_not_verb phrase) as [[|]|]; simpl; try done.
  intros [Hin|[= -> <-]%list_elem_of_singleton]%elem_of_app; [by apply Hloop|].
  split; [|split; [|done]].
  - intros ->. unfold len in Hlen. simpl in Hlen. lia.
  - exists 0%nat. by rewrite drop_0, firstn_all.
Qed.

End chunks_properties.

Lemma collect_chunks_sound_witness :
  big_dog_phrase ≠ []
  ∧ (∃ i : nat, big_dog_phrase = take (length big_dog_phrase) (drop i big_dog_phrase))
  ∧ join " " (RankedLexeme.text <$> big_dog_phrase) = "big dog".
Proof.
  apply (collect_chunks_sound no_chunks big_dog_phrase "big dog" big_dog_phrase).
  vm_compute. apply list_elem_of_here.
Defined.

Lemma well_keyed_dict_set (lex : lexicon) rl :
  well_keyed lex → RankedLexeme.ids rl ≠ [] →
  well_keyed (dict_set (RankedLexeme.ids rl) rl lex).
Proof.
  intros [Hnodup Hall] Hne. split.
  - by apply dict_set_keys_NoDup.
  - by apply dict_set_Forall.
Qed.

Lemma union_ids_nonempty (p : list RankedLexeme) :
  p ≠ [] → Forall (λ rl, RankedLexeme.ids rl ≠ []) p →
  elements (⋃ ((λ rl, list_to_set (RankedLexeme.ids rl)) <$> p) : gset Z) ≠ [].
Proof.
  destruct p as [|rl p]; [done|]. intros _ [Hrl _]%Forall_cons.
  destruct (RankedLexeme.ids rl) as [|x ids] eqn:Hids; [done|].
  intros Hnil. apply elements_empty_inv in Hnil.
  assert (x ∈ (⋃ ((λ rl, list_to_set (RankedLexeme.ids rl)) <$> rl :: p) : gset Z)) as Hx.
  { rewrite fmap_cons, union_list_cons, Hids. set_solver. }
  rewrite Hnil in Hx. set_solver.
Qed.

Section lexicon_invariant.
Variable noun_phrases : string → list string.
Variable ranks : gmap string R.
Variable Pmem : RankedLexeme → Prop.
Variable Plex : lexicon → Prop.
Hypothesis Hmem : ∀ w r, ranks !! root w = Some r → Pmem (lexeme_of w r).
Hypothesis Hsingle : ∀ lex w r,
  Plex lex → ranks !! root w = Some r →
  Plex (dict_set (RankedLexeme.ids (lexeme_of w r)) (lexeme_of w r) lex).
Hypothesis Hchunk : ∀ m lex text p lex',
  Plex lex → Forall Pmem p → add_chunk m lex (text, Some p) = Ok lex' → Plex lex'.

Lemma flush_invariant m lex phrase lex' :
  Plex lex → Forall Pmem phrase →
  flush noun_phrases m lex phrase = Ok lex' → Plex lex'.
Proof.
  intros Hlex Hphrase. unfold flush. cbv zeta.
  pose proof (collect_chunks_Forall noun_phrases _ phrase Hphrase) as Hchunks.
  destruct (collect_chunks noun_phrases phrase) as [ys st]. simpl in *.
  destruct (foldlM (add_chunk m) lex ys) as [lex1|e] eqn:E; simpl; [|done].
  destruct st; [done|]. intros [= <-].
  revert lex lex1 Hlex E. induction Hchunks as [|y ys Hy Hys IH]; intros lex lex1 Hlex E.
  - by injection E as <-.
  - simpl in E. destruct (add_chunk m lex y) as [lex2|] eqn:E2; simpl in E; [|done].
    eapply IH; [|exact E]. destruct y as [text [p|]]; [|done].
    eapply Hchunk; [exact Hlex | exact Hy | exact E2].
Qed.

Lemma phrase_step_invariant m st w st' :
  Plex (s_lex st) ∧ Forall Pmem (s_phrase st) →
  phrase_step noun_phrases ranks m st w = Ok st' →
  Plex (s_lex st') ∧ Forall Pmem (s_phrase st').
Proof.
  intros [Hlex Hphrase]. unfold phrase_step.
  destruct (_ && _).
  - unfold getkey. destruct (ranks !! root w) as [r|] eqn:Hr; simpl; [|done].
    intros [= <-]. simpl. split; [done|].
    apply Forall_app. split; [done|]. constructor; [|constructor]. by apply Hmem.
  - destruct (flush noun_phrases m (s_lex st) (s_phrase st)) as [lex'|] eqn:E; simpl; [|done].
    intros [= <-]. simpl. split; [|constructor]. by eapply flush_invariant.
Qed.

Lemma single_step_invariant acc w acc' :
  Plex acc.1 → single_step ranks acc w = Ok acc' → Plex acc'.1.
Proof.
  intros Hlex. destruct acc as [lex m]. unfold single_step.
  destruct (_ : result bool) as [[|]|] eqn:E; simpl; try done.
  - unfold getkey. destruct (ranks !! root w) as [r|] eqn:Hr; simpl; [|done].
    intros [= <-]. simpl in *. by apply Hsingle.
  - by intros [= <-].
Qed.

Lemma normalize_sentence_invariant acc meta acc' :
  Plex acc.1 → normalize_sentence noun_phrases ranks acc meta = Ok acc' → Plex acc'.1.
Proof.
  intros Hacc Hn. unfold normalize_sentence in Hn. cbv zeta in Hn.
  destruct (foldlM (single_step ranks) acc (graf meta)) as [[lex m]|] eqn:E1; [|done].
  pose proof (foldlM_invariant (single_step ranks) (λ acc, Plex acc.1)
                single_step_invariant _ _ _ Hacc E1) as Hlex. simpl in Hlex.
  cbn [mbind result_bind] in Hn.
  destruct (phrase_pass noun_phrases ranks m lex (graf meta)) as [st|] eqn:E2; [|done].
  injection Hn as <-. simpl.
  unfold phrase_pass in E2. destruct (getitem (graf meta) 0) as [w0|]; [|done].
  cbn [mbind result_bind] in E2.
  refine (proj1 (foldlM_invariant (phrase_step noun_phrases ranks m)
            (λ st, Plex (s_lex st) ∧ Forall Pmem (s_phrase st))
            (phrase_step_invariant m) _ _ _ _ E2)).
  simpl. split; [done | constructor].
Qed.

Lemma collect_lexemes_invariant json_iter lex m :
  Plex [] → collect_lexemes noun_phrases json_iter ranks = Ok (lex, m) → Plex lex.
Proof.
  intros Hnil Hc. unfold collect_lexemes in Hc.
  exact (foldlM_invariant (normalize_sentence noun_phrases ranks) (λ acc, Plex acc.1)
           normalize_sentence_invariant _ ([], 0%R) (lex, m) Hnil Hc).
Qed.

End lexicon_invariant.

Lemma collect_lexemes_well_keyed noun_phrases json_iter ranks lex m :
  collect_lexemes noun_phrases json_iter ranks = Ok (lex, m) → well_keyed lex.
Proof.
  apply (collect_lexemes_invariant noun_phrases ranks
           (λ rl, RankedLexeme.ids rl ≠ []) well_keyed).
  - done.
  - intros lex' w r Hlex _. by apply well_keyed_dict_set.
  - intros m' lex0 text p lex' Hlex Hp. unfold add_chunk.
    case_decide as Hne; [done|]. intros [= <-].
    apply (well_keyed_dict_set lex0 (RankedLexeme.mk text _ _ "np")); [done|].
    by apply union_ids_nonempty.
  - split; [constructor | constructor].
Qed.

Lemma mapM_normalize_ids (sum_ranks : R) (l out : list RankedLexeme) :
  mapM (λ rl, r ← float_div (RankedLexeme.rank rl) sum_ranks; Ok (replace_rank rl r)) l
    = Ok out →
  RankedLexeme.ids <$> out = RankedLexeme.ids <$> l.
Proof.
  revert out. induction l as [|rl l IH]; intros out; cbn [mapM].
  - by intros [= <-].
  - destruct (float_div _ _) as [r|]; cbn [mbind result_bind]; [|done].
    destruct (mapM _ l) as [out'|]; cbn [mbind result_bind]; [|done].
    intros [= <-]. rewrite !fmap_cons. f_equal. by apply IH.
Qed.

(** X7.  No two lexemes that [normalize_key_phrases] yields have the same
    ids, and none has an empty list of ids. *)
Theorem normalize_distinct_ids noun_phrases (json_iter : list ParsedGraf)
    (ranks : gmap string R) (out : list RankedLexeme) :
  normalize_key_phrases noun_phrases json_iter ranks = Ok out →
  NoDup (RankedLexeme.ids <$> out) ∧ Forall (λ rl, RankedLexeme.ids rl ≠ []) out.
Proof.
  unfold normalize_key_phrases.
  destruct (collect_lexemes noun_phrases json_iter ranks) as [[lex m]|] eqn:Hc; [|done].
  cbn [mbind result_bind]. intros Hout%mapM_normalize_ids.
  destruct (collect_lexemes_well_keyed _ _ _ _ _ Hc) as [Hnodup Hall].
  assert (RankedLexeme.ids <$> values lex = lex.*1) as Hkeys.
  { clear -Hall. unfold values. induction Hall as [|[k rl] lex [Hk _] _ IH]; [done|].
    rewrite !fmap_cons. cbn [fst snd] in *. congruence. }
  assert (RankedLexeme.ids <$> out ≡ₚ lex.*1) as Hperm.
  { by rewrite Hout, sorted_by_rank_desc_Permutation, Hkeys. }
  split; [by rewrite Hperm|].
  assert (Forall (λ ids : list Z, ids ≠ []) (RankedLexeme.ids <$> out)) as H.
  { rewrite Hperm. apply Forall_fmap. eapply Forall_impl; [exact Hall|].
    intros [k rl] [Hk Hne]. simpl in *. by rewrite Hk. }
  apply Forall_forall. intros rl Hrl. rewrite Forall_forall in H.
  apply H, list_elem_of_fmap. by exists rl.
Qed.

Lemma insert_desc_by_rank x l : insert_desc x l = insert_desc_by RankedLexeme.rank x l.
Proof. induction l as [|y l IH]; simpl; [done|]. by rewrite IH. Qed.

Lemma sorted_by_rank_desc_descending l : descending RankedLexeme.rank (sorted_by_rank_desc l).
Proof.
  induction l as [|x l IH]; simpl; [constructor|].
  rewrite insert_desc_by_rank. by apply insert_desc_by_descending.
Qed.

Lemma elem_le_sum xs x : Forall (λ x, 0 < x)%R xs → x ∈ xs → (x <= sum xs)%R.
Proof.
  induction 1 as [|y xs Hy Hxs IH]; [by intros ?%elem_of_nil|].
  rewrite sum_cons. intros [->|Hin]%elem_of_cons.
  - destruct xs as [|z zs]; [rewrite sum_nil; lra|].
    assert (0 < sum (z :: zs))%R by (by apply sum_positive). lra.
  - specialize (IH Hin). lra.
Qed.

(** X8.  With positive ranks, what [normalize_key_phrases] yields is in
    descending order of rank, and every rank lies in (0, 1]. *)
Theorem normalize_descending noun_phrases (json_iter : list ParsedGraf)
    (ranks : gmap string R) (out : list RankedLexeme) :
  positive_ranks ranks →
  normalize_key_phrases noun_phrases json_iter ranks = Ok out →
  descending RankedLexeme.rank out
  ∧ Forall (λ rl, 0 < RankedLexeme.rank rl <= 1)%R out.
Proof.
  intros Hranks. unfold normalize_key_phrases.
  destruct (collect_lexemes noun_phrases json_iter ranks) as [[lex m]|] eqn:Hc; [|done].
  cbn [mbind result_bind].
  pose proof (collect_lexemes_positive _ _ _ _ _ Hranks Hc) as Hpos.
  destruct (decide (lex = [])) as [->|Hne].
  { intros [= <-]. split; constructor. }
  set (S := sum (RankedLexeme.rank <$> values lex)).
  assert (0 < S)%R as HS.
  { apply sum_positive; [by apply Forall_fmap|]. destruct lex; [done | discriminate]. }
  rewrite mapM_normalize by lra. intros [= <-]. split.
  - eapply descending_fmap; [|apply sorted_by_rank_desc_descending].
    intros a b Hab. simpl. apply Rmult_le_compat_r; [|done].
    apply Rlt_le, Rinv_0_lt_compat, HS.
  - apply Forall_fmap. apply Forall_forall. intros rl Hrl.
    rewrite sorted_by_rank_desc_Permutation in Hrl.
    assert (0 < RankedLexeme.rank rl)%R as H0.
    { unfold positive_lexemes in Hpos. rewrite Forall_forall in Hpos. by apply Hpos. }
    assert (RankedLexeme.rank rl <= S)%R as H1.
    { apply elem_le_sum; [by apply Forall_fmap|].
      apply list_elem_of_fmap. by exists rl. }
    simpl. split.
    + by apply Rdiv_lt_0_compat.
    + replace 1%R with (S / S)%R by (field; lra).
      apply Rmult_le_compat_r; [|done]. apply Rlt_le, Rinv_0_lt_compat, HS.
Qed.

(** X9.  [limit_keyphrases] after [normalize_key_phrases]: a stream of n
    lexemes normalised from positive ranks has the mean rank 1/n, which is
    the threshold [limit_keyphrases] applies to it. *)
Theorem normalized_mean noun_phrases (json_iter : list ParsedGraf)
    (ranks : gmap string R) (out : list RankedLexeme) :
  positive_ranks ranks →
  normalize_key_phrases noun_phrases json_iter ranks = Ok out →
  out ≠ [] →
  mean (RankedLexeme.rank <$> out) = Ok (1 / IZR (len out))%R.
Proof.
  intros Hranks Hout Hne.
  destruct (collect_lexemes noun_phrases json_iter ranks) as [[lex m]|] eqn:Hc.
  - assert (lex ≠ []) as Hlex.
    { intros ->. unfold normalize_key_phrases in Hout. rewrite Hc in Hout.
      cbn in Hout. by injection Hout as <-. }
    destruct (normalize_positive_ranks _ _ _ _ _ Hranks Hc Hlex) as (out' & Hout' & Hsum).
    rewrite Hout in Hout'. injection Hout' as <-.
    unfold mean. rewrite decide_False by (by destruct out).
    rewrite Hsum. unfold len. by rewrite length_fmap.
  - unfold normalize_key_phrases in Hout. by rewrite Hc in Hout.
Qed.

Lemma big_dog_ranks_positive : positive_ranks big_dog_ranks.
Proof.
  intros k r. unfold big_dog_ranks.
  intros [[_ <-]|[_ [_ <-]%lookup_singleton_Some]]%lookup_insert_Some; lra.
Qed.

Lemma closed_sentence_normalized :
  ∃ out, normalize_key_phrases no_chunks [closed_sentence] big_dog_ranks = Ok out ∧ out ≠ [].
Proof.
  destruct closed_sentence_phrase as (lex & m & Hc & Hget & _).
  destruct (normalize_positive_ranks no_chunks _ _ _ _ big_dog_ranks_positive Hc)
    as (out & Hout & Hsum).
  - intros ->. done.
  - exists out. split; [done|]. intros ->. rewrite fmap_nil, sum_nil in Hsum. lra.
Qed.

Lemma normalize_distinct_ids_witness :
  ∃ out, normalize_key_phrases no_chunks [closed_sentence] big_dog_ranks = Ok out
         ∧ NoDup (RankedLexeme.ids <$> out)
         ∧ Forall (λ rl, RankedLexeme.ids rl ≠ []) out.
Proof.
  destruct closed_sentence_normalized as (out & Hout & _).
  exists out. split; [exact Hout|].
  exact (normalize_distinct_ids no_chunks [closed_sentence] big_dog_ranks out Hout).
Defined.

Lemma normalize_descending_witness :
  ∃ out, normalize_key_phrases no_chunks [closed_sentence] big_dog_ranks = Ok out
         ∧ descending RankedLexeme.rank out
         ∧ Forall (λ rl, 0 < RankedLexeme.rank rl <= 1)%R out.
Proof.
  destruct closed_sentence_normalized as (out & Hout & _).
  exists out. split; [exact Hout|].
  exact (normalize_descending no_chunks [closed_sentence] big_dog_ranks out
           big_dog_ranks_positive Hout).
Defined.

Lemma normalized_mean_witness :
  ∃ out, normalize_key_phrases no_chunks [closed_sentence] big_dog_ranks = Ok out
         ∧ mean (RankedLexeme.rank <$> out) = Ok (1 / IZR (len out))%R.
Proof.
  destruct closed_sentence_normalized as (out & Hout & Hne).
  exists out. split; [exact Hout|].
  exact (normalized_mean no_chunks [closed_sentence] big_dog_ranks out
           big_dog_ranks_positive Hout Hne).
Defined.

(** ** Sentence significance: properties *)

Section similarity_properties.
Variable MinHash : Type.
Variable mh_digest : list string → MinHash.
Variable jaccard : MinHash → MinHash → R.

Lemma key_sentences_snoc kernel json_iter meta :
  key_sentences MinHash mh_digest jaccard kernel (json_iter ++ [meta])
  = (dict_set (sentence_text meta)
       (sentence_dist MinHash mh_digest jaccard kernel meta,
        (key_sentences MinHash mh_digest jaccard kernel json_iter).2)
       (key_sentences MinHash mh_digest jaccard kernel json_iter).1,
     (key_sentences MinHash mh_digest jaccard kernel json_iter).2 + 1).
Proof.
  unfold key_sentences. rewrite foldl_app. simpl.
  by destruct (foldl _ _ json_iter).
Qed.

Lemma key_sentences_spec kernel json_iter :
  (key_sentences MinHash mh_digest jaccard kernel json_iter).2 = len json_iter
  ∧ NoDup (key_sentences MinHash mh_digest jaccard kernel json_iter).1.*1
  ∧ ∀ text dist j,
      dict_get text (key_sentences MinHash mh_digest jaccard kernel json_iter).1
        = Some (dist, j)
      ↔ last_with_text MinHash mh_digest jaccard kernel json_iter text dist j.
Proof.
  induction json_iter as [|meta json_iter (Hlen & Hnodup & Hget)] using rev_ind.
  - split; [done|]. split; [constructor|]. intros text dist j. split; [done|].
    intros (meta & _ & Hm & _). done.
  - rewrite key_sentences_snoc. simpl. split; [|split].
    + rewrite Hlen. unfold len. rewrite length_app. simpl. lia.
    + by apply dict_set_keys_NoDup.
    + intros text dist j. rewrite Hlen.
      destruct (decide (sentence_text meta = text)) as [<-|Hne].
      * rewrite dict_get_set. split.
        -- intros [= <- <-]. exists meta. unfold len. rewrite Nat2Z.id.
           split; [lia|]. split; [by rewrite lookup_app_r, Nat.sub_diag by lia|].
           repeat split. intros j' meta' Hj' _.
           apply lookup_lt_Some in Hj'. rewrite length_app in Hj'. simpl in Hj'. lia.
        -- intros (meta0 & Hj0 & Hm0 & Ht0 & -> & Hlast).
           assert (Z.to_nat j = length json_iter) as Hj.
           { pose proof (Hlast (length json_iter) meta) as H1.
             rewrite lookup_app_r, Nat.sub_diag in H1 by lia. specialize (H1 eq_refl eq_refl).
             apply lookup_lt_Some in Hm0. rewrite length_app in Hm0. simpl in Hm0. lia. }
           rewrite Hj, lookup_app_r, Nat.sub_diag in Hm0 by lia. injection Hm0 as <-.
           do 2 f_equal. unfold len. lia.
      * rewrite dict_get_set_ne by done. rewrite Hget. split.
        -- intros (meta0 & Hj0 & Hm0 & Ht0 & -> & Hlast). exists meta0.
           split; [done|]. split; [by apply lookup_app_l_Some|]. repeat split; [done|].
           intros j' meta' Hj' Ht'.
           destruct (decide (j' < length json_iter)%nat).
           ++ rewrite lookup_app_l in Hj' by done. eauto.
           ++ rewrite lookup_app_r in Hj' by lia.
              destruct (j' - length json_iter)%nat; simpl in Hj'; [|done].
              injection Hj' as <-. done.
        -- intros (meta0 & Hj0 & Hm0 & Ht0 & -> & Hlast). exists meta0.
           assert (Z.to_nat j < length json_iter)%nat as Hlt.
           { destruct (decide (Z.to_nat j < length json_iter)%nat); [done|].
             rewrite lookup_app_r in Hm0 by lia.
             destruct (Z.to_nat j - length json_iter)%nat; simpl in Hm0; [|done].
             injection Hm0 as <-. done. }
           rewrite lookup_app_l in Hm0 by done.
           repeat split; try done.
           intros j' meta' Hj' Ht'. apply (Hlast j' meta'); [|done].
           by apply lookup_app_l_Some.
Qed.

(** X10.  [top_sentences] yields one record per distinct sentence text:
    sentences of equal text collapse into the last of them, whose position
    and distance the record carries. *)
Theorem top_sentences_collapse (kernel : list (RankedLexeme * MinHash))
    (json_iter : list ParsedGraf) :
  NoDup (SummarySent.text <$> top_sentences MinHash mh_digest jaccard kernel json_iter)
  ∧ ∀ p, p ∈ top_sentences MinHash mh_digest jaccard kernel json_iter
         ↔ last_with_text MinHash mh_digest jaccard kernel json_iter (SummarySent.text p) (SummarySent.dist p)
             (SummarySent.idx p).
Proof.
  destruct (key_sentences_spec kernel json_iter) as (_ & Hnodup & Hget).
  unfold top_sentences.
  set (d := (key_sentences MinHash mh_digest jaccard kernel json_iter).1) in *.
  split.
  - rewrite <- list_fmap_compose.
    erewrite (list_fmap_ext _ fst); [|intros k [text [dist i]] _; reflexivity].
    by rewrite sorted_desc_by_Permutation.
  - intros [dist i text]. simpl. rewrite <- Hget, <- (dict_get_elem_of _ _ _ Hnodup).
    rewrite list_elem_of_fmap. setoid_rewrite sorted_desc_by_Permutation. split.
    + intros ([text' [dist' i']] & [= -> -> ->] & Hin). done.
    + intros Hin. by exists (text, (dist, i)).
Qed.

(** X11.  [top_sentences] yields its records in descending order of
    distance. *)
Theorem top_sentences_descending (kernel : list (RankedLexeme * MinHash))
    (json_iter : list ParsedGraf) :
  descending SummarySent.dist (top_sentences MinHash mh_digest jaccard kernel json_iter).
Proof.
  unfold top_sentences.
  pose proof (sorted_desc_by_descending (λ x : string * (R * Z), x.2.1)
                (key_sentences MinHash mh_digest jaccard kernel json_iter).1) as H.
  unfold descending in *. induction H as [|[text [dist i]] l Hl IH Hx]; simpl; constructor.
  - exact IH.
  - apply Forall_fmap. eapply Forall_impl; [exact Hx|]. by intros [text' [dist' i']].
Qed.

Lemma sentence_dist_bounds (json_iter : list RankedLexeme) meta :
  (∀ m1 m2, 0 <= jaccard m1 m2 <= 1)%R →
  Forall (λ rl, 0 <= RankedLexeme.rank rl)%R json_iter →
  (0 <= sentence_dist MinHash mh_digest jaccard (rank_kernel MinHash mh_digest json_iter) meta
   <= sum (RankedLexeme.rank <$> json_iter))%R.
Proof.
  intros Hj. unfold sentence_dist, rank_kernel. cbv zeta.
  induction 1 as [|rl l Hrl Hl IH].
  - simpl. rewrite sum_nil. lra.
  - rewrite !fmap_cons, !sum_cons.
    pose proof (Hj (mh_digest ((λ w, pretty (word_id w)) <$> graf meta))
                   (mh_digest (pretty <$> RankedLexeme.ids rl))) as Hjm.
    split; [|]; nra.
Qed.

Lemma key_sentences_Forall (P : R → Prop) kernel json_iter :
  (∀ meta, P (sentence_dist MinHash mh_digest jaccard kernel meta)) →
  Forall (λ x, P x.2.1) (key_sentences MinHash mh_digest jaccard kernel json_iter).1.
Proof.
  intros HP. induction json_iter as [|meta json_iter IH] using rev_ind; [constructor|].
  rewrite key_sentences_snoc. cbn [fst]. apply dict_set_Forall; [exact IH | apply HP].
Qed.

(** X12.  [top_sentences] after [rank_kernel]: when the Jaccard estimate
    lies between 0 and 1 and no rank is negative, the distance of every
    sentence lies between 0 and the sum of the ranks of the kernel (1 for a
    normalised stream). *)
Theorem top_sentences_dist_bounds (json_iter : list RankedLexeme)
    (sentences : list ParsedGraf) :
  (∀ m1 m2, 0 <= jaccard m1 m2 <= 1)%R →
  Forall (λ rl, 0 <= RankedLexeme.rank rl)%R json_iter →
  Forall (λ p, 0 <= SummarySent.dist p <= sum (RankedLexeme.rank <$> json_iter))%R
         (top_sentences MinHash mh_digest jaccard
            (rank_kernel MinHash mh_digest json_iter) sentences).
Proof.
  intros Hj Hranks. unfold top_sentences. apply Forall_fmap.
  rewrite sorted_desc_by_Permutation.
  eapply Forall_impl.
  - apply (key_sentences_Forall
             (λ d, 0 <= d <= sum (RankedLexeme.rank <$> json_iter))%R).
    intros meta. by apply sentence_dist_bounds.
  - by intros [text [dist i]].
Qed.

End similarity_properties.

Lemma top_sentences_dist_bounds_witness :
  Forall (λ p, 0 <= SummarySent.dist p <= sum (RankedLexeme.rank <$> [keyword]))%R
         (top_sentences unit toy_digest toy_jaccard
            (rank_kernel unit toy_digest [keyword]) [closed_sentence]).
Proof.
  apply top_sentences_dist_bounds.
  - intros m1 m2. unfold toy_jaccard. lra.
  - repeat constructor. simpl. lra.
Defined.

(** X13.  [limit_sentences] after [top_sentences]: the words
    [limit_sentences] counts for a sentence are the raw texts of its tokens
    when none of them holds a space; a sentence without tokens counts as one
    (empty) word. *)
Theorem sentence_text_split (meta : ParsedGraf) :
  Forall (λ w, free_of " " (raw w) = true) (graf meta) →
  split " " (sentence_text meta)
  = if decide (graf meta = []) then [""] else raw <$> graf meta.
Proof.
  intros Hall. unfold sentence_text. case_decide as Hg.
  - by rewrite Hg.
  - apply split_join; [by destruct (graf meta) | by apply Forall_fmap].
Qed.

Lemma sentence_text_split_witness :
  split " " (sentence_text closed_sentence)
  = if decide (graf closed_sentence = []) then [""] else raw <$> graf closed_sentence.
Proof. apply sentence_text_split. repeat constructor. Defined.

(** ** Document summarization: further properties *)

Lemma limit_keyphrases_loop_selection phrase_limit rank_thresh lex : ∀ used,
  ∃ k : nat,
    (limit_keyphrases_loop phrase_limit rank_thresh used lex).1
      = RankedLexeme.text <$> take k (filter (λ rl, is_verb rl = false) lex)
    ∧ Forall (λ rl, rank_thresh <= RankedLexeme.rank rl)%R
             (take k (filter (λ rl, is_verb rl = false) lex))
    ∧ (k ≤ Z.to_nat (phrase_limit + 1 - used))%nat.
Proof.
  induction lex as [|rl lex IH]; intros used.
  - exists 0%nat. repeat split; [constructor | lia].
  - cbn [limit_keyphrases_loop]. rewrite filter_cons.
    destruct (decide (is_verb rl = false)) as [Hnv|Hv]; unfold is_verb in *;
      destruct (first_char (RankedLexeme.pos rl)) as [c|e].
    + apply bool_decide_eq_false in Hnv. rewrite decide_True by done.
      case_bool_decide as Hused; simpl.
      { exists 0%nat. repeat split; [constructor | lia]. }
      case_bool_decide as Hrank; simpl.
      { exists 0%nat. repeat split; [constructor | lia]. }
      destruct (IH (used + 1)) as (k & Hk & Hall & Hle).
      exists (S k). simpl. rewrite Hk. repeat split; [|lia].
      constructor; [|done]. apply Rnot_lt_le. exact Hrank.
    + exists 0%nat. repeat split; [constructor | lia].
    + apply not_false_is_true, bool_decide_eq_true in Hv.
      rewrite decide_False by (intros H; by apply H). apply IH.
    + done.
Qed.

(** X14.  What [limit_keyphrases] yields are the texts of the first [k]
    non-verb lexemes of the stream, in order, for some [k] of at most
    [phrase_limit + 1]; each of them has a rank of at least the mean rank of
    the whole stream, verbs included. *)
Theorem limit_keyphrases_selection (json_iter : list RankedLexeme) (phrase_limit : Z)
    (rank_thresh : R) :
  mean (RankedLexeme.rank <$> json_iter) = Ok rank_thresh →
  ∃ k : nat,
    (limit_keyphrases json_iter phrase_limit).1
      = RankedLexeme.text <$> take k (filter (λ rl, is_verb rl = false) json_iter)
    ∧ Forall (λ rl, rank_thresh <= RankedLexeme.rank rl)%R
             (take k (filter (λ rl, is_verb rl = false) json_iter))
    ∧ (k ≤ Z.to_nat (phrase_limit + 1))%nat.
Proof.
  intros Hmean. unfold limit_keyphrases. rewrite Hmean.
  destruct (limit_keyphrases_loop_selection phrase_limit rank_thresh json_iter 0)
    as (k & H1 & H2 & H3).
  exists k. repeat split; [done | done | lia].
Qed.

Lemma limit_keyphrases_selection_witness :
  ∃ k : nat,
    (limit_keyphrases [keyword] 20).1
      = RankedLexeme.text <$> take k (filter (λ rl, is_verb rl = false) [keyword])
    ∧ Forall (λ rl, 1 <= RankedLexeme.rank rl)%R
             (take k (filter (λ rl, is_verb rl = false) [keyword]))
    ∧ (k ≤ Z.to_nat (20 + 1))%nat.
Proof. apply (limit_keyphrases_selection [keyword] 20 1). exact (mean_replicate 0 1). Defined.

Lemma limit_keyphrases_loop_raises phrase_limit rank_thresh lex : ∀ used e,
  (limit_keyphrases_loop phrase_limit rank_thresh used lex).2 = Some e →
  e = IndexError ∧ ∃ rl, rl ∈ lex ∧ RankedLexeme.pos rl = "".
Proof.
  induction lex as [|rl lex IH]; intros used e; simpl; [done|].
  destruct (first_char (RankedLexeme.pos rl)) as [c|e'] eqn:Hc; simpl.
  - intros H.
    assert (∃ used', (limit_keyphrases_loop phrase_limit rank_thresh used' lex).2 = Some e)
      as [used' H'].
    { destruct (decide (c ≠ "v")); [|by eexists].
      destruct (_ || _); [done|]. simpl in H. by eexists. }
    destruct (IH _ _ H') as (-> & rl' & Hin & Hpos).
    split; [done|]. exists rl'. split; [by right | done].
  - intros [= <-]. unfold first_char in Hc.
    destruct (RankedLexeme.pos rl) eqn:Hp; [|done]. injection Hc as <-.
    split; [done|]. exists rl. split; [by left | done].
Qed.

(** X15.  [limit_keyphrases] raises StatisticsError exactly on an empty
    stream; the only other exception is the IndexError of a lexeme whose
    [pos] is empty. *)
Theorem limit_keyphrases_exceptions (json_iter : list RankedLexeme) (phrase_limit : Z) :
  ((limit_keyphrases json_iter phrase_limit).2 = Some StatisticsError ↔ json_iter = [])
  ∧ (∀ e, (limit_keyphrases json_iter phrase_limit).2 = Some e →
          e = StatisticsError
          ∨ (e = IndexError ∧ ∃ rl, rl ∈ json_iter ∧ RankedLexeme.pos rl = "")).
Proof.
  unfold limit_keyphrases, mean. split.
  - destruct json_iter as [|rl l]; [done|].
    rewrite decide_False by done. split; [|done].
    intros H. by apply limit_keyphrases_loop_raises in H as [? _].
  - intros e. case_decide; simpl; [intros [= <-]; by left|].
    intros Hloop. right. by eapply limit_keyphrases_loop_raises.
Qed.

Lemma limit_sentences_loop_count word_limit json_iter : ∀ word_count,
  (length (limit_sentences_loop word_limit word_count json_iter)
   ≤ Z.to_nat (word_limit - word_count))%nat.
Proof.
  induction json_iter as [|p rest IH]; intros word_count; simpl; [lia|].
  pose proof (len_split_pos " " (SummarySent.text p)).
  case_decide; simpl; [lia|].
  specialize (IH (word_count + len (split " " (SummarySent.text p)))). lia.
Qed.

(** X16.  Every sentence counts at least one word (a text without a
    space, even the empty text, splits into one word), so [limit_sentences]
    yields at most [word_limit] sentences. *)
Theorem limit_sentences_count (json_iter : list SummarySent) (word_limit : Z) :
  (length (limit_sentences json_iter word_limit) ≤ Z.to_nat word_limit)%nat.
Proof.
  unfold limit_sentences.
  pose proof (limit_sentences_loop_count word_limit json_iter 0). lia.
Qed.

Lemma limit_sentences_loop_mono json_iter : ∀ word_limit word_limit' word_count,
  word_limit ≤ word_limit' →
  limit_sentences_loop word_limit word_count json_iter
  `prefix_of` limit_sentences_loop word_limit' word_count json_iter.
Proof.
  induction json_iter as [|p rest IH]; intros word_limit word_limit' word_count Hle; simpl.
  - done.
  - case_decide; [apply prefix_nil|].
    rewrite decide_False by lia. apply prefix_cons. by apply IH.
Qed.

(** X17.  A larger word budget only adds sentences at the end of what
    [limit_sentences] yields. *)
Theorem limit_sentences_monotone (json_iter : list SummarySent) (word_limit word_limit' : Z) :
  word_limit ≤ word_limit' →
  limit_sentences json_iter word_limit `prefix_of` limit_sentences json_iter word_limit'.
Proof. apply limit_sentences_loop_mono. Qed.

Lemma limit_sentences_monotone_witness :
  limit_sentences summary 8 `prefix_of` limit_sentences summary 100.
Proof. apply limit_sentences_monotone. lia. Defined.

Lemma total_words_nonneg out : 0 ≤ total_words out.
Proof. induction out as [|item out IH]; simpl; [lia|]. unfold len. lia. Qed.

Lemma limit_sentences_loop_all json_iter : ∀ word_limit word_count,
  word_count + total_words (sentence_item <$> json_iter) ≤ word_limit →
  limit_sentences_loop word_limit word_count json_iter = sentence_item <$> json_iter.
Proof.
  induction json_iter as [|p rest IH]; intros word_limit word_count Hle; [done|].
  rewrite fmap_cons in *. simpl in Hle. simpl limit_sentences_loop.
  pose proof (total_words_nonneg (sentence_item <$> rest)).
  rewrite decide_False by lia. unfold sentence_item at 1. f_equal. apply IH. lia.
Qed.

(** X18.  When the words of the whole stream fit the budget, every
    sentence is yielded. *)
Theorem limit_sentences_all (json_iter : list SummarySent) (word_limit : Z) :
  total_words (sentence_item <$> json_iter) ≤ word_limit →
  limit_sentences json_iter word_limit = sentence_item <$> json_iter.
Proof. intros H. apply limit_sentences_loop_all. lia. Qed.

Lemma limit_sentences_all_witness :
  limit_sentences summary 10 = sentence_item <$> summary.
Proof. apply limit_sentences_all. vm_compute. discriminate. Defined.

Lemma join_pieces ws : join "" (ws ≫= pieces) = join "" (spaced <$> ws).
Proof.
  induction ws as [|w ws IH]; [done|].
  rewrite bind_cons, fmap_cons, join_empty_app, join_empty_cons, IH. f_equal.
  unfold pieces, spaced. destruct (punctuation_led w).
  - by rewrite join_empty_cons, str_app_nil_r.
  - by rewrite !join_empty_cons, str_app_nil_r.
Qed.

Lemma make_sentence_loop_rest ws : ∀ lex idx,
  0 < idx →
  make_sentence_loop lex idx ws
  = if decide ("" ∈ ws) then Raise IndexError else Ok (lex ++ (ws ≫= pieces)).
Proof.
  induction ws as [|w ws IH]; intros lex idx Hidx.
  - cbn [make_sentence_loop]. rewrite decide_False by apply not_elem_of_nil.
    by rewrite app_nil_r.
  - cbn [make_sentence_loop]. rewrite bool_decide_eq_true_2 by done.
    destruct w as [|c w].
    + cbn [first_char mbind result_bind].
      rewrite decide_True by apply list_elem_of_here. done.
    + cbn [first_char mbind result_bind]. rewrite IH by lia.
      destruct (decide ("" ∈ ws)) as [Hin|Hnin].
      * rewrite decide_True by (by apply list_elem_of_further). done.
      * rewrite decide_False by (rewrite elem_of_cons; intros [?|?]; done).
        rewrite bind_cons. unfold pieces at 2, punctuation_led. cbn [first_char].
        destruct (in_str _ _); simpl; by rewrite <- ?app_assoc.
Qed.

Lemma make_sentence_rendered sent_text :
  make_sentence sent_text
  = if decide ("" ∈ drop 1 sent_text) then Raise IndexError else Ok (rendered sent_text).
Proof.
  unfold make_sentence. destruct sent_text as [|w ws].
  - cbn [make_sentence_loop drop mbind result_bind].
    rewrite decide_False by apply not_elem_of_nil. done.
  - cbn [make_sentence_loop]. rewrite bool_decide_eq_false_2 by lia.
    cbn [mbind result_bind]. rewrite make_sentence_loop_rest by lia.
    change (drop 1 (w :: ws)) with ws.
    destruct (decide ("" ∈ ws)); cbn [mbind result_bind]; [done|].
    f_equal. simpl app.
    by rewrite join_empty_cons, join_pieces.
Qed.

(** X19.  [make_sentence] raises IndexError exactly when a word after the
    first is empty (an empty first word is never inspected); otherwise it
    returns the first word followed by every later word, each with one space
    before it unless it begins with a character of [NO_SPACE_BEFORE]. *)
Theorem make_sentence_spec (sent_text : list string) :
  make_sentence sent_text
  = if decide ("" ∈ drop 1 sent_text) then Raise IndexError else Ok (rendered sent_text).
Proof. apply make_sentence_rendered. Qed.

Lemma rendered_plain w ws :
  Forall (λ w, punctuation_led w = false) ws → rendered (w :: ws) = join " " (w :: ws).
Proof.
  unfold rendered. revert w. induction ws as [|w' ws IH]; intros w Hall.
  - simpl. by rewrite str_app_nil_r.
  - apply Forall_cons in Hall as [Hw' Hall].
    rewrite fmap_cons, join_empty_cons. unfold spaced at 1. rewrite Hw'.
    specialize (IH w' Hall).
    change (join " " (w :: w' :: ws)) with (w +:+ " " +:+ join " " (w' :: ws)).
    rewrite <- IH. by rewrite str_app_assoc.
Qed.

(** X20.  [make_sentence] undoes the [split] of [limit_sentences] on a
    text none of whose words after the first is empty or begins with
    punctuation. *)
Theorem make_sentence_split (text : string) :
  Forall (λ w, w ≠ "" ∧ punctuation_led w = false) (drop 1 (split " " text)) →
  make_sentence (split " " text) = Ok text.
Proof.
  intros Hall. rewrite make_sentence_rendered.
  rewrite decide_False.
  - f_equal. pose proof (join_split " " text) as Hjoin.
    destruct (split " " text) as [|w ws] eqn:E; [done|].
    rewrite rendered_plain; [done|].
    simpl in Hall. eapply Forall_impl; [exact Hall|]. by intros ? [_ ?].
  - intros Hin. rewrite Forall_forall in Hall. by destruct (Hall "" Hin).
Qed.

Lemma make_sentence_split_witness :
  make_sentence (split " " "the quick brown fox") = Ok "the quick brown fox".
Proof.
  apply make_sentence_split.
  repeat (constructor; [split; [discriminate | reflexivity]|]). constructor.
Defined.

(** ** Parsing: further properties *)

Lemma length_lt_1 (s : string) : Z.of_nat (String.length s) < 1 ↔ s = "".
Proof. destruct s; simpl; split; intros; try done; lia. Qed.

Lemma split_grafs_loop_groups lines : ∀ graf,
  ∃ groups : list (list string),
    split_grafs_loop graf lines = join (String newline "") <$> groups
    ∧ concat groups = graf ++ text_lines lines
    ∧ Forall (λ group, group ≠ []) groups
    ∧ (length groups ≤ S (blank_lines lines))%nat.
Proof.
  unfold text_lines, blank_lines.
  induction lines as [|line rest IH]; intros graf; cbn [split_grafs_loop].
  - case_decide as Hg.
    + exists [graf]. simpl. rewrite !app_nil_r. split; [done|]. split; [done|].
      split; [|lia]. constructor; [|done]. intros ->. unfold len in Hg. simpl in Hg. lia.
    + exists []. simpl. split; [done|]. split; [|split; [done | lia]].
      destruct graf; [done|]. unfold len in Hg. simpl in Hg. lia.
  - cbv zeta. rewrite fmap_cons. case_decide as Hblank.
    + apply length_lt_1 in Hblank.
      rewrite filter_cons_False by (intros H; by apply H).
      rewrite filter_cons_True by done. simpl length.
      case_decide as Hg.
      * destruct (IH []) as (groups & Hout & Hcat & Hne & Hlen).
        exists (graf :: groups). rewrite Hout. simpl. rewrite Hcat. simpl.
        split; [done|]. split; [done|]. split; [|lia].
        constructor; [|done]. intros ->. unfold len in Hg. simpl in Hg. lia.
      * destruct (IH graf) as (groups & Hout & Hcat & Hne & Hlen).
        exists groups. split; [done|]. split; [done|]. split; [done | lia].
    + assert (strip line ≠ "") as Hline by (intros H; by apply Hblank, length_lt_1).
      rewrite filter_cons_True by done. rewrite filter_cons_False by done.
      destruct (IH (graf ++ [strip line])) as (groups & Hout & Hcat & Hne & Hlen).
      exists groups. rewrite <- app_assoc in Hcat. done.
Qed.

(** X21.  [split_grafs] cuts the stripped, non-blank lines into paragraphs
    without losing or reordering any: every paragraph is the lines of a
    non-empty group joined by newlines, the groups in order make up the
    non-blank lines, and there is at most one paragraph more than there are
    blank lines. *)
Theorem split_grafs_groups (lines : list string) :
  ∃ groups : list (list string),
    split_grafs lines = join (String newline "") <$> groups
    ∧ concat groups = text_lines lines
    ∧ Forall (λ group, group ≠ []) groups
    ∧ (length groups ≤ S (blank_lines lines))%nat.
Proof. apply (split_grafs_loop_groups lines []). Qed.

Lemma join_nonempty sep (l : list string) :
  l ≠ [] → Forall (λ s, s ≠ "") l → join sep l ≠ "".
Proof.
  destruct l as [|[|c s] l]; [done| |].
  - by intros _ [? _]%Forall_cons.
  - intros _ _. unfold join. destruct l; simpl; done.
Qed.

Lemma split_grafs_loop_nonempty lines : ∀ graf,
  Forall (λ line, line ≠ "") graf →
  Forall (λ graf_text, graf_text ≠ "") (split_grafs_loop graf lines).
Proof.
  induction lines as [|line rest IH]; intros graf Hgraf; cbn [split_grafs_loop].
  - case_decide as Hg; [|constructor]. constructor; [|constructor].
    apply join_nonempty; [|done]. intros ->. unfold len in Hg. simpl in Hg. lia.
  - cbv zeta. case_decide as Hblank.
    + case_decide as Hg; [|by apply IH]. constructor; [|by apply IH].
      apply join_nonempty; [|done]. intros ->. unfold len in Hg. simpl in Hg. lia.
    + apply IH. apply Forall_app. split; [done|]. apply Forall_singleton.
      intros H. by apply Hblank, length_lt_1.
Qed.

Lemma text_lines_unquoted lines :
  text_lines ((λ line, if startswith ">" line then "" else line) <$> lines)
  = text_lines (filter (λ line, startswith ">" line = false) lines).
Proof.
  unfold text_lines. induction lines as [|line lines IH]; [done|].
  rewrite !fmap_cons. destruct (startswith ">" line) eqn:E.
  - rewrite filter_cons_False by (intros H; by apply H).
    rewrite (filter_cons_False _ line) by (by rewrite E). exact IH.
  - rewrite (filter_cons_True _ line) by done. rewrite fmap_cons, !filter_cons.
    by rewrite IH.
Qed.

(** X22.  [filter_quotes], without the e-mail filters, yields no empty
    paragraph, and its paragraphs are made of the lines of the text that do
    not begin with the quote mark, stripped, the blank ones left out, in
    order. *)
Theorem filter_quotes_paragraphs (text : string) :
  Forall (λ graf_text, graf_text ≠ "") (filter_quotes text)
  ∧ ∃ groups : list (list string),
      filter_quotes text = join (String newline "") <$> groups
      ∧ concat groups
        = text_lines (filter (λ line, startswith ">" line = false) (split newline text))
      ∧ Forall (λ group, group ≠ []) groups.
Proof.
  unfold filter_quotes, split_grafs. split.
  - by apply split_grafs_loop_nonempty.
  - destruct (split_grafs_loop_groups
                ((λ line, if startswith ">" line then "" else line) <$> split newline text) [])
      as (groups & Hout & Hcat & Hne & _).
    exists groups. split; [done|]. split; [|done].
    by rewrite Hcat, text_lines_unquoted.
Qed.

Lemma PAT_SPACE_no_alnum word :
  PAT_SPACE word = true → all_chars (λ c, negb (is_alnum c)) word = true.
Proof.
  induction word as [|c rest IH]; [done|]. simpl.
  intros [Hc Hrest]%andb_true_iff. apply Ascii.eqb_eq in Hc. subst c.
  apply andb_true_iff. split; [done|].
  apply orb_true_iff in Hrest as [Hrest|Hrest]; [|by apply IH].
  apply orb_true_iff in Hrest as [->%bool_decide_eq_true| ->%bool_decide_eq_true]; done.
Qed.

Lemma all_chars_impl (f g : ascii → bool) s :
  (∀ c, f c = true → g c = true) → all_chars f s = true → all_chars g s = true.
Proof.
  intros Hfg. induction s as [|c s IH]; [done|]. simpl.
  intros [Hc Hs]%andb_true_iff. apply andb_true_iff. auto.
Qed.

(** X23.  What [is_not_word] accepts is not empty and holds neither a
    letter nor a digit: a token with a letter or a digit is always parsed as
    a word. *)
Theorem is_not_word_no_alnum (word : string) :
  is_not_word word = true →
  word ≠ "" ∧ all_chars (λ c, negb (is_alnum c)) word = true.
Proof.
  unfold is_not_word. intros [H|H]%orb_true_iff.
  - unfold PAT_PUNCT in H. apply andb_true_iff in H as [Hne%bool_decide_eq_true Hall].
    split; [done|]. eapply all_chars_impl; [|exact Hall].
    intros c Hc. unfold is_alnum. apply negb_true_iff in Hc. by rewrite Hc.
  - split; [by destruct word | by apply PAT_SPACE_no_alnum].
Qed.

Lemma is_not_word_no_alnum_witness :
  "--" ≠ "" ∧ all_chars (λ c, negb (is_alnum c)) "--" = true.
Proof. apply is_not_word_no_alnum. reflexivity. Defined.

Lemma UNIQ_WORDS_init_ok : registry_ok UNIQ_WORDS_init.
Proof.
  unfold UNIQ_WORDS_init. split.
  - intros k i [_ <-]%lookup_singleton_Some. rewrite map_size_singleton. lia.
  - intros k k' i [<- _]%lookup_singleton_Some [<- _]%lookup_singleton_Some. done.
Qed.

Lemma get_word_id_lookup root UNIQ_WORDS :
  (get_word_id root UNIQ_WORDS).2 !! root = Some (get_word_id root UNIQ_WORDS).1.
Proof.
  unfold get_word_id. destruct (UNIQ_WORDS !! root) eqn:E; simpl; [done|].
  apply lookup_insert_eq.
Qed.

Lemma get_word_id_ok root UNIQ_WORDS :
  registry_ok UNIQ_WORDS → registry_ok (get_word_id root UNIQ_WORDS).2.
Proof.
  intros [Hlt Hinj]. unfold get_word_id.
  destruct (UNIQ_WORDS !! root) eqn:E; simpl; [done|]. split.
  - intros k i. rewrite map_size_insert_None by done.
    intros [[_ <-]|[_ Hk]]%lookup_insert_Some; [lia|]. specialize (Hlt _ _ Hk). lia.
  - intros k k' i [[<- <-]|[Hne Hk]]%lookup_insert_Some
                  [[<- Hi]|[Hne' Hk']]%lookup_insert_Some; try done.
    + specialize (Hlt _ _ Hk'). lia.
    + specialize (Hlt _ _ Hk). lia.
    + by eapply Hinj.
Qed.

(** X24.  Two calls of [get_word_id] in a row, from a registry whose
    identifiers are below its size and distinct: the identifiers returned
    are equal exactly when the roots are, both roots are registered under
    them, and the registry is again of that kind. *)
Theorem get_word_id_unique (root root' : string) (UNIQ_WORDS : gmap string Z) :
  registry_ok UNIQ_WORDS →
  let '(i, UNIQ_WORDS1) := get_word_id root UNIQ_WORDS in
  let '(j, UNIQ_WORDS2) := get_word_id root' UNIQ_WORDS1 in
  (i = j ↔ root = root')
  ∧ UNIQ_WORDS2 !! root = Some i
  ∧ UNIQ_WORDS2 !! root' = Some j
  ∧ registry_ok UNIQ_WORDS2.
Proof.
  intros Hok.
  pose proof (get_word_id_lookup root UNIQ_WORDS) as H1.
  pose proof (get_word_id_ok root UNIQ_WORDS Hok) as Hok1.
  destruct (get_word_id root UNIQ_WORDS) as [i U1]. simpl in *.
  pose proof (get_word_id_lookup root' U1) as H2.
  pose proof (get_word_id_ok root' U1 Hok1) as Hok2.
  pose proof (get_word_id_extends root' U1) as Hext.
  destruct (get_word_id root' U1) as [j U2]. simpl in *.
  pose proof (lookup_weaken _ _ _ _ H1 Hext) as H1'.
  split; [split|split; [done|split; done]].
  - intros <-. destruct Hok2 as [_ Hinj]. by eapply Hinj.
  - intros <-. congruence.
Qed.

Lemma get_word_id_unique_witness :
  let '(i, UNIQ_WORDS1) := get_word_id "dog" UNIQ_WORDS_init in
  let '(j, UNIQ_WORDS2) := get_word_id "cat" UNIQ_WORDS1 in
  (i = j ↔ "dog" = "cat")
  ∧ UNIQ_WORDS2 !! "dog" = Some i
  ∧ UNIQ_WORDS2 !! "cat" = Some j
  ∧ registry_ok UNIQ_WORDS2.
Proof. apply (get_word_id_unique "dog" "cat" UNIQ_WORDS_init). apply UNIQ_WORDS_init_ok. Defined.

Lemma token_ok_weaken U U' w : U ⊆ U' → token_ok U w → token_ok U' w.
Proof.
  intros Hsub [[Hk Hl]|H]; [left | by right]. split; [done|]. by eapply lookup_weaken.
Qed.

Lemma loop_invariant {A B} (body : A → B → A * option exn) (P : A → Prop) :
  (∀ a x, P a → P (body a x).1) → ∀ l a, P a → P (loop body a l).1.
Proof.
  intros Hbody l. induction l as [|x l IH]; intros a Ha; simpl; [done|].
  specialize (Hbody a x Ha). destruct (body a x) as [a' [e|]]; simpl in *; [done|].
  by apply IH.
Qed.

Lemma loop_success {A B} (body : A → B → A * option exn) (P : list B → A → Prop) :
  (∀ pre x a a', P pre a → body a x = (a', None) → P (pre ++ [x]) a') →
  ∀ l pre a a', P pre a → loop body a l = (a', None) → P (pre ++ l) a'.
Proof.
  intros Hbody l. induction l as [|x l IH]; intros pre a a' Ha; simpl.
  - intros [= <-]. by rewrite app_nil_r.
  - destruct (body a x) as [a1 [e|]] eqn:E; [done|]. intros H.
    change (x :: l) with ([x] ++ l). rewrite (assoc_L (++) pre [x] l).
    eapply IH; [|exact H]. by eapply Hbody.
Qed.

Lemma loop_total {A B} (body : A → B → A * option exn) (P : list B → A → Prop) :
  (∀ x rest a, P (x :: rest) a → ∃ a', body a x = (a', None) ∧ P rest a') →
  ∀ l a, P l a → ∃ a', loop body a l = (a', None) ∧ P [] a'.
Proof.
  intros Hbody l. induction l as [|x l IH]; intros a Ha; simpl; [by exists a|].
  destruct (Hbody _ _ _ Ha) as (a1 & -> & Ha1). by apply IH.
Qed.

Lemma first_char_lower s : s ≠ "" → ∃ c, first_char (lower s) = Ok c.
Proof. destruct s as [|c s]; [done|]. intros _. simpl. by eexists. Qed.

Section parsing_more.
Variable sentences : string → list Sentence.
Variable tag : string → list (string * string).
Variable lemmatize : string → string → string.
Variable hexdigest : list string → string.

Lemma parse_word_token sent st pos_tag st' :
  parse_word lemmatize sent st pos_tag = Ok st' →
  ∃ w, cur_graf st' = cur_graf st ++ [w]
       ∧ idx w = new_base_idx st
       ∧ digest st' = digest st ++ [root w]
       ∧ new_base_idx st' = new_base_idx st + 1
       ∧ markup st' = markup st
       ∧ token_ok (uniq_words st') w
       ∧ (registry_ok (uniq_words st) → registry_ok (uniq_words st')).
Proof.
  unfold parse_word. intros H.
  destruct (_ : result (WordNode * option string * option string * Z))
    as [[[[word pr] pf] ri]|e] eqn:E1; simpl in H; [|done].
  assert (word_id word = 0 ∧ keep word = 0 ∧ idx word = new_base_idx st)
    as (Hid & Hkeep & Hidx).
  { destruct (is_not_word pos_tag.1 || bool_decide (pos_tag.2 = "SYM")).
    - by injection E1 as <- _ _ _.
    - destruct (bool_decide (raw_idx st < len (words sent))).
      + destruct (getitem _ _); simpl in E1; [|done].
        destruct (first_char _); simpl in E1; [|done].
        by injection E1 as <- _ _ _.
      + by injection E1 as <- _ _ _. }
  clear E1. destruct pr as [pr|], pf as [pf|]; try done.
  set (r := if bool_decide (pf ∈ POS_LEMMA) then lower (lemmatize pr pf)
            else if bool_decide (pf ≠ ".") then lower pr else pr) in *.
  destruct (bool_decide (pf ∈ POS_KEEPS)).
  - pose proof (get_word_id_lookup r (uniq_words st)) as Hl.
    pose proof (get_word_id_ok r (uniq_words st)) as Hok.
    destruct (get_word_id r (uniq_words st)) as [i u]. injection H as <-.
    eexists. simpl. split; [reflexivity|]. simpl.
    split; [done|]. split; [done|]. split; [done|]. split; [done|].
    split; [by left | done].
  - injection H as <-. eexists. simpl. split; [reflexivity|]. simpl.
    split; [done|]. split; [done|]. split; [done|]. split; [done|].
    split; [by right | done].
Qed.

Lemma parse_word_tokens_of sent st0 pre pos_tag st st' :
  tokens_of st0 pre st →
  parse_word lemmatize sent st pos_tag = Ok st' →
  tokens_of st0 (pre ++ [pos_tag]) st'.
Proof.
  intros (Hm & Hb & Hi & Hd & Hl & Ht) H.
  pose proof (parse_word_extends lemmatize _ _ _ _ H) as Hext.
  apply parse_word_token in H as (w & Hg & Hw & Hd' & Hb' & Hm' & Ht' & _).
  unfold tokens_of, len in *. rewrite Hg, Hd', Hb', Hm', !length_app, fmap_app. simpl.
  split; [done|]. split; [lia|]. split; [|split; [|split; [lia|]]].
  - rewrite Hi, Hw, Hb. rewrite Nat2Z.inj_add. simpl.
    rewrite seqZ_app by lia. simpl. done.
  - by rewrite Hd, fmap_app.
  - apply Forall_app. split; [|by apply Forall_singleton].
    eapply Forall_impl; [exact Ht|]. intros ?. by apply token_ok_weaken.
Qed.

Lemma parse_sentence_record doc_id st sent st' :
  parse_sentence tag lemmatize hexdigest doc_id st sent = (st', None) →
  ∃ g, markup st' = markup st ++ [mkParsedGraf doc_id (hexdigest (root <$> g)) g]
       ∧ length g = length (tag (sent_str sent))
       ∧ idx <$> g = seqZ (new_base_idx st) (len g)
       ∧ new_base_idx st' = new_base_idx st + len g
       ∧ Forall (token_ok (uniq_words st')) g.
Proof.
  unfold parse_sentence.
  set (body := λ st pos_tag, match parse_word lemmatize sent st pos_tag with
                             | Ok st' => (st', None)
                             | Raise e => (st, Some e)
                             end).
  set (st0 := mkParseState _ _ _ _ _ _ _ _).
  pose proof (loop_success body (tokens_of st0)) as Hloop.
  destruct (loop body st0 (tag (sent_str sent))) as [st1 [e|]] eqn:E; [done|].
  intros [= <-]. simpl.
  destruct (Hloop) with (l := tag (sent_str sent)) (pre := @nil (string * string))
                        (a := st0) (a' := st1) as (Hm & Hb & Hi & Hd & Hl & Ht).
  - intros pre x a a' Ha. unfold body.
    destruct (parse_word lemmatize sent a x) as [a1|] eqn:Ew; [|done].
    intros [= <-]. by eapply parse_word_tokens_of.
  - unfold tokens_of. simpl. split; [done|]. split; [unfold len; simpl; lia|].
    split; [done|]. split; [done|]. split; [done | constructor].
  - exact E.
  - exists (cur_graf st1). simpl in *. unfold len in *. rewrite Hm, Hd, Hl.
    split; [done|]. split; [done|]. split; [done|]. split; [done|]. done.
Qed.

Lemma parse_sentence_records_of doc_id base_idx pre st sent st' :
  records_of tag hexdigest doc_id base_idx pre st →
  parse_sentence tag lemmatize hexdigest doc_id st sent = (st', None) →
  records_of tag hexdigest doc_id base_idx (pre ++ [sent]) st'.
Proof.
  intros (Hrec & Hidx & Hle & Htok) H.
  pose proof (parse_sentence_extends tag lemmatize hexdigest doc_id st sent) as Hext.
  rewrite H in Hext. simpl in Hext.
  apply parse_sentence_record in H as (g & Hm & Hlen & Hg & Hb & Hgt).
  unfold records_of. rewrite Hm, Hb. split; [|split; [|split]].
  - apply Forall2_app; [done|]. by apply Forall2_cons.
  - rewrite bind_app, fmap_app, Hidx. simpl. rewrite app_nil_r, Hg.
    replace (new_base_idx st + len g - base_idx)
      with ((new_base_idx st - base_idx) + len g) by lia.
    rewrite seqZ_app by (unfold len; lia). do 2 f_equal. lia.
  - unfold len. lia.
  - apply Forall_app. split; [|by apply Forall_singleton].
    eapply Forall_impl; [exact Htok|]. intros meta Hmeta.
    eapply Forall_impl; [exact Hmeta|]. intros ?. by apply token_ok_weaken.
Qed.

Lemma parse_graf_records_of doc_id graf_text base_idx UNIQ_WORDS grafs n UNIQ_WORDS' :
  parse_graf sentences tag lemmatize hexdigest doc_id graf_text base_idx UNIQ_WORDS
    = (Ok (grafs, n), UNIQ_WORDS') →
  ∃ st, grafs = markup st ∧ n = new_base_idx st ∧ UNIQ_WORDS' = uniq_words st
        ∧ records_of tag hexdigest doc_id base_idx (sentences graf_text) st.
Proof.
  unfold parse_graf.
  set (st0 := mkParseState None None 0 base_idx [] [] [] UNIQ_WORDS).
  destruct (loop _ st0 _) as [st [e|]] eqn:E; [done|]. intros [= <- <- <-].
  exists st. split; [done|]. split; [done|]. split; [done|].
  refine (loop_success (parse_sentence tag lemmatize hexdigest doc_id)
            (records_of tag hexdigest doc_id base_idx) _ (sentences graf_text) [] st0 st _ E).
  - intros pre x a a'. apply parse_sentence_records_of.
  - unfold records_of. simpl. rewrite Z.sub_diag. split; [constructor|].
    split; [done|]. split; [lia | constructor].
Qed.

(** X25.  [parse_graf] returns one record per sentence, in order: it
    carries the document's identifier, the digest of the roots of its
    tokens, and one token per tagged unit of the sentence. *)
Theorem parse_graf_records (doc_id graf_text : string) (base_idx n : Z)
    (UNIQ_WORDS UNIQ_WORDS' : gmap string Z) (grafs : list ParsedGraf) :
  parse_graf sentences tag lemmatize hexdigest doc_id graf_text base_idx UNIQ_WORDS
    = (Ok (grafs, n), UNIQ_WORDS') →
  Forall2 (λ meta sent, id meta = doc_id
                        ∧ sha1 meta = hexdigest (root <$> graf meta)
                        ∧ length (graf meta) = length (tag (sent_str sent)))
          grafs (sentences graf_text).
Proof. intros (st & -> & _ & _ & H & _)%parse_graf_records_of. exact H. Qed.

(** X26.  The tokens [parse_graf] returns are numbered consecutively from
    [base_idx], across the sentences of the paragraph, and the new base
    index it returns is [base_idx] plus their number. *)
Theorem parse_graf_positions (doc_id graf_text : string) (base_idx n : Z)
    (UNIQ_WORDS UNIQ_WORDS' : gmap string Z) (grafs : list ParsedGraf) :
  parse_graf sentences tag lemmatize hexdigest doc_id graf_text base_idx UNIQ_WORDS
    = (Ok (grafs, n), UNIQ_WORDS') →
  idx <$> (grafs ≫= graf) = seqZ base_idx (len (grafs ≫= graf))
  ∧ n = base_idx + len (grafs ≫= graf).
Proof.
  intros (st & -> & -> & _ & _ & Hidx & Hle & _)%parse_graf_records_of.
  assert (len (markup st ≫= graf) = new_base_idx st - base_idx) as Hlen.
  { unfold len. rewrite <- (length_fmap idx), Hidx, length_seqZ. lia. }
  rewrite Hlen. split; [done | lia].
Qed.

Lemma parse_word_total sent pos_tag rest st :
  can_parse sent (pos_tag :: rest) st →
  ∃ st', parse_word lemmatize sent st pos_tag = Ok st' ∧ can_parse sent rest st'.
Proof.
  intros (H0 & [Htag Hrest]%Forall_cons & Hlen). unfold parse_word.
  destruct (is_not_word pos_tag.1 || bool_decide (pos_tag.2 = "SYM")) eqn:Enw.
  - assert (wordlike pos_tag = false) as Hwl by (unfold wordlike; by rewrite Enw).
    rewrite filter_cons_False in Hlen by (by rewrite Hwl).
    cbn [mbind result_bind].
    destruct (bool_decide ("." ∈ POS_KEEPS));
      [destruct (get_word_id _ _)|]; eexists; (split; [reflexivity|]); done.
  - assert (wordlike pos_tag = true) as Hwl by (unfold wordlike; by rewrite Enw).
    rewrite filter_cons_True in Hlen by done. unfold len in Hlen. simpl in Hlen.
    rewrite bool_decide_eq_true_2 by (unfold len; lia).
    destruct (lookup_lt_is_Some_2 (words sent) (Z.to_nat (raw_idx st))) as [w Hw];
      [lia|].
    apply getitem_nonneg in Hw; [|done]. rewrite Hw.
    destruct (first_char_lower pos_tag.2 (Htag Hwl)) as [c ->].
    cbn [mbind result_bind].
    destruct (bool_decide (c ∈ POS_KEEPS));
      [destruct (get_word_id _ _)|]; eexists; (split; [reflexivity|]);
      (split; [simpl; lia|]); (split; [done|]); unfold len; simpl; lia.
Qed.

Lemma parse_sentence_total doc_id st sent :
  well_tagged tag sent →
  ∃ st', parse_sentence tag lemmatize hexdigest doc_id st sent = (st', None).
Proof.
  intros [Htags Hlen]. unfold parse_sentence.
  set (body := λ st pos_tag, match parse_word lemmatize sent st pos_tag with
                             | Ok st' => (st', None)
                             | Raise e => (st, Some e)
                             end).
  set (st0 := mkParseState _ _ _ _ _ _ _ _).
  destruct (loop_total body (can_parse sent)) with (l := tag (sent_str sent)) (a := st0)
    as (st1 & -> & _).
  - intros x rest a Ha. unfold body.
    destruct (parse_word_total _ _ _ _ Ha) as (a' & -> & Ha'). by exists a'.
  - unfold can_parse, len. simpl. split; [lia|]. split; [done | lia].
  - by eexists.
Qed.

(** X27.  [parse_graf] returns, whatever the registry holds, when every
    word-like unit of the paragraph has a tag that is not empty and every
    sentence has a word for each of its word-like units. *)
Theorem parse_graf_returns (doc_id graf_text : string) (base_idx : Z)
    (UNIQ_WORDS : gmap string Z) :
  Forall (well_tagged tag) (sentences graf_text) →
  ∃ grafs n,
    (parse_graf sentences tag lemmatize hexdigest doc_id graf_text base_idx UNIQ_WORDS).1
    = Ok (grafs, n).
Proof.
  intros Hall. unfold parse_graf.
  destruct (loop_total (parse_sentence tag lemmatize hexdigest doc_id)
              (λ rest _, Forall (well_tagged tag) rest))
    with (l := sentences graf_text)
         (a := mkParseState None None 0 base_idx [] [] [] UNIQ_WORDS)
    as (st & -> & _).
  - intros sent rest a [Hsent Hrest]%Forall_cons.
    destruct (parse_sentence_total doc_id a sent Hsent) as [a' Ha']. by exists a'.
  - done.
  - by eexists _, _.
Qed.

Lemma parse_word_ok sent st pos_tag st' :
  parse_word lemmatize sent st pos_tag = Ok st' →
  registry_ok (uniq_words st) → registry_ok (uniq_words st').
Proof. intros (w & _ & _ & _ & _ & _ & _ & H)%parse_word_token. exact H. Qed.

Lemma parse_sentence_ok doc_id st sent :
  registry_ok (uniq_words st) →
  registry_ok (uniq_words (parse_sentence tag lemmatize hexdigest doc_id st sent).1).
Proof.
  intros Hok. unfold parse_sentence.
  set (body := λ st pos_tag, match parse_word lemmatize sent st pos_tag with
                             | Ok st' => (st', None)
                             | Raise e => (st, Some e)
                             end).
  set (st0 := mkParseState _ _ _ _ _ _ _ _).
  assert (registry_ok (uniq_words (loop body st0 (tag (sent_str sent))).1)) as H.
  { apply (loop_invariant body (λ st, registry_ok (uniq_words st))); [|exact Hok].
    intros a x Ha. unfold body.
    destruct (parse_word lemmatize sent a x) eqn:E; simpl; [|done].
    by eapply parse_word_ok. }
  destruct (loop body st0 (tag (sent_str sent))) as [st1 [e|]]; exact H.
Qed.

Lemma parse_graf_ok doc_id graf_text base_idx UNIQ_WORDS :
  registry_ok UNIQ_WORDS →
  registry_ok (parse_graf sentences tag lemmatize hexdigest doc_id graf_text base_idx
                 UNIQ_WORDS).2.
Proof.
  intros Hok. unfold parse_graf.
  pose proof (loop_invariant (parse_sentence tag lemmatize hexdigest doc_id)
                (λ st, registry_ok (uniq_words st)) (parse_sentence_ok doc_id)
                (sentences graf_text)
                (mkParseState None None 0 base_idx [] [] [] UNIQ_WORDS) Hok) as H.
  destruct (loop _ _ _) as [st err]. exact H.
Qed.

Lemma corpus_ok_weaken out U U' :
  U ⊆ U' → registry_ok U' → corpus_ok out U → corpus_ok out U'.
Proof.
  intros Hsub Hok [_ Htok]. split; [done|].
  eapply Forall_impl; [exact Htok|]. intros meta Hmeta.
  eapply Forall_impl; [exact Hmeta|]. intros ?. by apply token_ok_weaken.
Qed.

Lemma parse_doc_graf_ok meta st graf_text :
  corpus_ok st.1.1 st.2 →
  let st' := (parse_doc_graf sentences tag lemmatize hexdigest meta st graf_text).1 in
  corpus_ok st'.1.1 st'.2.
Proof.
  destruct st as [[out base_idx] UNIQ_WORDS]. simpl. intros Hok. unfold parse_doc_graf.
  destruct (doc_id meta) as [i|]; [|done].
  pose proof (parse_graf_extends sentences tag lemmatize hexdigest i graf_text base_idx
                UNIQ_WORDS) as Hext.
  pose proof (parse_graf_ok i graf_text base_idx UNIQ_WORDS (proj1 Hok)) as Hreg.
  destruct (parse_graf _ _ _ _ _ _ _ _) as [[[grafs nbi]|e] U] eqn:E; simpl in *.
  - destruct (corpus_ok_weaken _ _ _ Hext Hreg Hok) as [_ Hout].
    split; [done|]. apply Forall_app. split; [done|].
    apply parse_graf_records_of in E as (st & -> & _ & -> & _ & _ & _ & Htok). done.
  - by eapply corpus_ok_weaken.
Qed.

Lemma parse_doc_meta_ok st meta :
  corpus_ok st.1 st.2 →
  let st' := (parse_doc_meta sentences tag lemmatize hexdigest st meta).1 in
  corpus_ok st'.1 st'.2.
Proof.
  destruct st as [out UNIQ_WORDS]. simpl. intros Hok. unfold parse_doc_meta.
  destruct (doc_text meta) as [text|]; [|done].
  pose proof (loop_invariant (parse_doc_graf sentences tag lemmatize hexdigest meta)
                (λ st, corpus_ok st.1.1 st.2) (parse_doc_graf_ok meta)
                (filter_quotes text) (out, 0, UNIQ_WORDS) Hok) as H.
  destruct (loop _ _ _) as [[[out' b'] U'] err]. exact H.
Qed.

Lemma parse_doc_ok json_iter UNIQ_WORDS :
  registry_ok UNIQ_WORDS →
  corpus_ok (parse_doc sentences tag lemmatize hexdigest json_iter UNIQ_WORDS).1.1
            (parse_doc sentences tag lemmatize hexdigest json_iter UNIQ_WORDS).2.
Proof.
  intros Hok. unfold parse_doc.
  pose proof (loop_invariant (parse_doc_meta sentences tag lemmatize hexdigest)
                (λ st, corpus_ok st.1 st.2) parse_doc_meta_ok json_iter ([], UNIQ_WORDS)) as H.
  destruct (loop _ _ _) as [[out U] err]. apply H. split; [done | constructor].
Qed.

(** X28.  However [parse_doc] ends, it leaves a registry whose
    identifiers are below its size and distinct, provided it found one. *)
Theorem parse_doc_registry (json_iter : list Doc) (UNIQ_WORDS : gmap string Z) :
  registry_ok UNIQ_WORDS →
  registry_ok (parse_doc sentences tag lemmatize hexdigest json_iter UNIQ_WORDS).2.
Proof. intros Hok. exact (proj1 (parse_doc_ok json_iter UNIQ_WORDS Hok)). Qed.

(** X29.  In what [parse_doc] yields, whether it ends normally or raises,
    a token that is not kept has the identifier 0, a kept token has the
    identifier the final registry gives its root, and two kept tokens, of
    whatever sentences, have the same identifier exactly when they have the
    same root. *)
Theorem parse_doc_word_ids (json_iter : list Doc) (UNIQ_WORDS : gmap string Z)
    (meta meta' : ParsedGraf) (w w' : WordNode) :
  registry_ok UNIQ_WORDS →
  let res := parse_doc sentences tag lemmatize hexdigest json_iter UNIQ_WORDS in
  meta ∈ res.1.1 → w ∈ graf meta → meta' ∈ res.1.1 → w' ∈ graf meta' →
  token_ok res.2 w
  ∧ (keep w = 1 → keep w' = 1 → (word_id w = word_id w' ↔ root w = root w')).
Proof.
  intros Hok res Hm Hw Hm' Hw'.
  destruct (parse_doc_ok json_iter UNIQ_WORDS Hok) as [[_ Hinj] Htok].
  fold res in Hinj, Htok. rewrite Forall_forall in Htok.
  pose proof (Htok _ Hm) as Hg. pose proof (Htok _ Hm') as Hg'.
  rewrite Forall_forall in Hg, Hg'.
  pose proof (Hg _ Hw) as Ht. pose proof (Hg' _ Hw') as Ht'.
  split; [done|]. intros Hk Hk'.
  destruct Ht as [[_ Hl]|[? _]]; [|lia]. destruct Ht' as [[_ Hl']|[? _]]; [|lia].
  split.
  - intros Heq. rewrite <- Heq in Hl'. by eapply Hinj.
  - intros Heq. rewrite <- Heq in Hl'. congruence.
Qed.

End parsing_more.

Lemma big_dog_parsed :
  parse_graf toy_sentences toy_tag toy_lemmatize toy_hexdigest "d3" "big dog" 0 UNIQ_WORDS_init
  = (Ok (big_dog_grafs, 2), big_dog_registry).
Proof. vm_compute. reflexivity. Qed.

Lemma parse_graf_records_witness :
  Forall2 (λ meta sent, id meta = "d3"
                        ∧ sha1 meta = toy_hexdigest (root <$> graf meta)
                        ∧ length (graf meta) = length (toy_tag (sent_str sent)))
          big_dog_grafs (toy_sentences "big dog").
Proof.
  exact (parse_graf_records toy_sentences toy_tag toy_lemmatize toy_hexdigest
           "d3" "big dog" 0 2 UNIQ_WORDS_init big_dog_registry big_dog_grafs big_dog_parsed).
Defined.

Lemma parse_graf_positions_witness :
  idx <$> (big_dog_grafs ≫= graf) = seqZ 0 (len (big_dog_grafs ≫= graf))
  ∧ 2 = 0 + len (big_dog_grafs ≫= graf).
Proof.
  exact (parse_graf_positions toy_sentences toy_tag toy_lemmatize toy_hexdigest
           "d3" "big dog" 0 2 UNIQ_WORDS_init big_dog_registry big_dog_grafs big_dog_parsed).
Defined.

Lemma parse_graf_returns_witness :
  ∃ grafs n,
    (parse_graf toy_sentences toy_tag toy_lemmatize toy_hexdigest "d3" "big dog" 0
       UNIQ_WORDS_init).1 = Ok (grafs, n).
Proof.
  apply parse_graf_returns. constructor; [|constructor]. split.
  - repeat constructor; discriminate.
  - vm_compute. lia.
Defined.

Lemma parse_doc_registry_witness :
  registry_ok (parse_doc toy_sentences toy_tag toy_lemmatize toy_hexdigest
                 [big_dog_doc] UNIQ_WORDS_init).2.
Proof. apply parse_doc_registry. apply UNIQ_WORDS_init_ok. Defined.

Lemma big_dog_doc_parsed :
  parse_doc toy_sentences toy_tag toy_lemmatize toy_hexdigest [big_dog_doc] UNIQ_WORDS_init
  = ((big_dog_grafs, None), big_dog_registry).
Proof. vm_compute. reflexivity. Qed.

Lemma parse_doc_word_ids_witness :
  token_ok big_dog_registry (mkWordNode 1 "big" "big" "NN" 1 0)
  ∧ (1 = 1 → 1 = 1 → (1 = 2 ↔ "big" = "dog")).
Proof.
  pose proof (parse_doc_word_ids toy_sentences toy_tag toy_lemmatize toy_hexdigest
                [big_dog_doc] UNIQ_WORDS_init
                (mkParsedGraf "d3" "bigdog"
                   [mkWordNode 1 "big" "big" "NN" 1 0; mkWordNode 2 "dog" "dog" "NN" 1 1])
                (mkParsedGraf "d3" "bigdog"
                   [mkWordNode 1 "big" "big" "NN" 1 0; mkWordNode 2 "dog" "dog" "NN" 1 1])
                (mkWordNode 1 "big" "big" "NN" 1 0) (mkWordNode 2 "dog" "dog" "NN" 1 1)
                UNIQ_WORDS_init_ok) as H.
  cbv zeta in H. rewrite big_dog_doc_parsed in H. apply H.
  - apply list_elem_of_here.
  - apply list_elem_of_here.
  - apply list_elem_of_here.
  - apply list_elem_of_further, list_elem_of_here.
Defined.
